(** * RLTicTacToe: the game-state manager and the alpha-beta adversary

    A shallow embedding of [src/tictactoe.py].  Python integers are [Z],
    Python lists are [list], the mutable [TicTacToeManager] instance is a
    record threaded through a state-and-exception monad, and the two float
    infinities used as search bounds are the two extra points of [num]. *)

From stdpp Require Import numbers list gmap strings.
From Stdlib Require Import ZArith Lia Sorted.

Open Scope Z_scope.

(** ** Python values *)

Inductive exn := IndexError | ValueError | ZeroDivisionError.

(** The result of running a piece of Python: a value, a raised exception,
    or [OutOfFuel] when the recursion bound given to the model was too small
    (shown below never to happen for [search]). *)
Inductive outcome (A : Type) :=
| Ret (a : A)
| Raise (e : exn)
| OutOfFuel.
Arguments Ret {A} a.
Arguments Raise {A} e.
Arguments OutOfFuel {A}.

(** Integers extended with [float('-infinity')] and [float('+infinity')]. *)
Inductive num := NegInf | Fin (z : Z) | PosInf.

Definition neg (a : num) : num :=
  match a with
  | NegInf => PosInf
  | Fin z => Fin (- z)
  | PosInf => NegInf
  end.

Definition num_leb (a b : num) : bool :=
  match a, b with
  | NegInf, _ => true
  | _, PosInf => true
  | Fin x, Fin y => x <=? y
  | _, _ => false
  end.

Definition num_ltb (a b : num) : bool := negb (num_leb b a).
Definition num_geb (a b : num) : bool := num_leb b a.
Definition num_gtb (a b : num) : bool := num_ltb b a.

Module Py.

(** [l[i]] with Python's indexing: a negative index counts from the end,
    anything outside [-len, len) raises. *)
Definition norm_index {A} (l : list A) (i : Z) : option nat :=
  let n := Z.of_nat (length l) in
  if (0 <=? i) && (i <? n) then Some (Z.to_nat i)
  else if (- n <=? i) && (i <? 0) then Some (Z.to_nat (n + i))
  else None.

Definition getitem {A} (l : list A) (i : Z) : option A :=
  match norm_index l i with
  | Some k => l !! k
  | None => None
  end.

Definition setitem {A} (l : list A) (i : Z) (v : A) : option (list A) :=
  match norm_index l i with
  | Some k => Some (<[k:=v]> l)
  | None => None
  end.

(** [l.remove(x)]: drops the first occurrence, [None] stands for ValueError. *)
Fixpoint remove (l : list Z) (x : Z) : option (list Z) :=
  match l with
  | [] => None
  | y :: l' =>
      if y =? x then Some l'
      else match remove l' x with
           | Some r => Some (y :: r)
           | None => None
           end
  end.

(** [range(a, b)] *)
Definition range (a b : Z) : list Z := seqZ a (b - a).

End Py.

(** ** The board *)

Module Board.

Record t := mk { size : Z; board : list Z }.

(** Modelled from the spec: the class [Board] (module [board]) is not among
    the sources.  [Board(size)] is the spec's [create(size)]: "allocate
    size*size cells set to 0". *)
Definition create (n : Z) : t :=
  {| size := n; board := replicate (Z.to_nat (n * n)) 0 |}.

(** Modelled from the spec: [Board.create_board] is not among the sources.
    It is the spec's board [reset()]: "set every cell to 0, no
    reallocation". *)
Definition create_board (b : t) : t :=
  {| size := size b; board := (fun _ => 0) <$> board b |}.

End Board.

(** ** The manager *)

Record TicTacToeManager := mkManager {
  board : Board.t;
  crosses : list Z;
  noughts : list Z;
  turn : Z;
  pieces_to_win : Z
}.

(** Methods run in a state monad over the instance; a raised exception
    keeps the mutations done before it. *)
Definition M (A : Type) : Type := TicTacToeManager -> TicTacToeManager * outcome A.

Definition ret {A} (a : A) : M A := fun m => (m, Ret a).
Definition bind {A B} (c : M A) (k : A -> M B) : M B :=
  fun m =>
    match c m with
    | (m', Ret a) => k a m'
    | (m', Raise e) => (m', Raise e)
    | (m', OutOfFuel) => (m', OutOfFuel)
    end.
Definition raise {A} (e : exn) : M A := fun m => (m, Raise e).
Definition get : M TicTacToeManager := fun m => (m, Ret m).
Definition modify (f : TicTacToeManager -> TicTacToeManager) : M unit :=
  fun m => (f m, Ret tt).

Declare Scope py_scope.
Delimit Scope py_scope with py.
Notation "'let*' x := c 'in' k" := (bind c (fun x => k))
  (at level 10, x name, c at level 100, k at level 200) : py_scope.
Notation "c ;; k" := (bind c (fun _ => k))
  (at level 100, k at level 200, right associativity) : py_scope.
Open Scope py_scope.

Definition set_board_cells (m : TicTacToeManager) (cells : list Z) : TicTacToeManager :=
  mkManager (Board.mk (Board.size (board m)) cells)
            (crosses m) (noughts m) (turn m) (pieces_to_win m).
Definition set_crosses (m : TicTacToeManager) (l : list Z) : TicTacToeManager :=
  mkManager (board m) l (noughts m) (turn m) (pieces_to_win m).
Definition set_noughts (m : TicTacToeManager) (l : list Z) : TicTacToeManager :=
  mkManager (board m) (crosses m) l (turn m) (pieces_to_win m).
Definition set_turn (m : TicTacToeManager) (t : Z) : TicTacToeManager :=
  mkManager (board m) (crosses m) (noughts m) t (pieces_to_win m).

(** [self.board.board[cell] = v] *)
Definition store_cell (cell v : Z) : M unit :=
  let* m := get in
  match Py.setitem (Board.board (board m)) cell v with
  | Some cells => modify (fun m => set_board_cells m cells)
  | None => raise IndexError
  end.

(** [__init__]: [pieces_to_win] is [None] when the argument is left out;
    [not pieces_to_win] is true for [None] and for [0]. *)
Definition init (b : Board.t) (pieces : option Z) : outcome TicTacToeManager :=
  let pieces_to_win :=
    match pieces with
    | None => Board.size b
    | Some k => if k =? 0 then Board.size b else k
    end in
  Ret (mkManager b [] [] 1 pieces_to_win).

Definition reset_board : M unit :=
  modify (fun m => mkManager (Board.create_board (board m))
                             (crosses m) (noughts m) (turn m) (pieces_to_win m)).

Definition make_move (cell : Z) : M unit :=
  let* m := get in
  (if turn m =? 1 then modify (fun m => set_crosses m (crosses m ++ [cell]))
   else modify (fun m => set_noughts m (noughts m ++ [cell]))) ;;
  store_cell cell (turn m) ;;
  modify (fun m => set_turn m (turn m * -1)).

Definition unmake_move (cell : Z) : M unit :=
  let* m := get in
  (if turn m =? -1 then
     match Py.remove (crosses m) cell with
     | Some l => modify (fun m => set_crosses m l)
     | None => raise ValueError
     end
   else
     match Py.remove (noughts m) cell with
     | Some l => modify (fun m => set_noughts m l)
     | None => raise ValueError
     end) ;;
  store_cell cell 0 ;;
  modify (fun m => set_turn m (turn m * -1)).

(** The body of the [enumerate] loop of [find_legal_moves], from index [i]. *)
Fixpoint legal_from (i : Z) (cells : list Z) : list Z :=
  match cells with
  | [] => []
  | cell :: rest =>
      if cell =? 0 then i :: legal_from (i + 1) rest
      else legal_from (i + 1) rest
  end.

Definition find_legal_moves : M (list Z) :=
  let* m := get in
  ret (legal_from 0 (Board.board (board m))).

Definition directions : list (Z * Z) :=
  [(-1, -1); (0, -1); (1, -1);
   (-1, 0);           (1, 0);
   (-1, 1);  (0, 1);  (1, 1)].

(** [check_borders]; [None] is the ZeroDivisionError of [%] and [//] on a
    board of size 0. *)
Definition check_borders (m : TicTacToeManager) (cell : Z) (direction : Z * Z) : option bool :=
  let size := Board.size (board m) in
  if size =? 0 then None
  else
    let x := cell `mod` size in
    let y := cell `div` size in
    Some ((0 <=? x + direction.1) && (x + direction.1 <? size)
          && (0 <=? y + direction.2) && (y + direction.2 <? size)).

(** How the inner [for i in range(1, pieces_to_win)] loop of one direction
    ends: [Completed] is the [else] branch of the [for]. *)
Inductive walk_end := Completed | Broke | Raised (e : exn).

(** The inner loop of [check_win_at_cell] for one direction, over the
    remaining values of [i].  Besides the way the loop ends it returns the
    indices at which [self.board.board] was subscripted, in order. *)
Fixpoint walk (m : TicTacToeManager) (cell cell_content : Z) (direction : Z * Z)
              (next_cell : Z) (steps : list Z) : list Z * walk_end :=
  match steps with
  | [] => ([], Completed)
  | i :: steps' =>
      match check_borders m next_cell direction with
      | None => ([], Raised ZeroDivisionError)
      | Some false => ([], Broke)
      | Some true =>
          let next_cell := cell + (direction.1 + direction.2 * Board.size (board m)) * i in
          match Py.getitem (Board.board (board m)) next_cell with
          | None => ([next_cell], Raised IndexError)
          | Some next_cell_content =>
              if negb (next_cell_content =? cell_content) then ([next_cell], Broke)
              else
                let '(reads, e) := walk m cell cell_content direction next_cell steps' in
                (next_cell :: reads, e)
          end
      end
  end.

(** The outer [for direction in directions] loop. *)
Fixpoint try_directions (m : TicTacToeManager) (cell cell_content : Z)
                        (ds : list (Z * Z)) : outcome Z :=
  match ds with
  | [] => Ret 0
  | direction :: ds' =>
      match (walk m cell cell_content direction cell
                  (Py.range 1 (pieces_to_win m))).2 with
      | Completed => Ret 1
      | Broke => try_directions m cell cell_content ds'
      | Raised e => Raise e
      end
  end.

Definition check_win_at_cell (cell : Z) : M Z :=
  fun m =>
    match Py.getitem (Board.board (board m)) cell with
    | None => (m, Raise IndexError)
    | Some cell_content => (m, try_directions m cell cell_content directions)
    end.

Fixpoint check_win_loop (turn_list : list Z) : M Z :=
  match turn_list with
  | [] => ret 0
  | cell :: rest =>
      let* finished := check_win_at_cell cell in
      if negb (finished =? 0) then ret finished
      else check_win_loop rest
  end.

Definition check_win : M Z :=
  let* m := get in
  check_win_loop (if turn m =? -1 then crosses m else noughts m).

(** ** The adversary *)

(** The [for cell in available_moves] loop of [search]; [rec] is the
    recursive call [self.search(depth - 1, ., .)]. *)
Fixpoint search_loop (rec : num -> num -> M num) (moves : list Z)
                     (alpha beta : num) : M num :=
  match moves with
  | [] => ret alpha
  | cell :: rest =>
      make_move cell ;;
      let* r := rec (neg beta) (neg alpha) in
      let evaluation := neg r in
      unmake_move cell ;;
      if num_geb evaluation beta then ret beta
      else search_loop rec rest
             (if num_gtb evaluation alpha then evaluation else alpha) beta
  end.

Fixpoint search_fuel (fuel : nat) (depth : Z) (alpha beta : num) : M num :=
  match fuel with
  | O => fun m => (m, OutOfFuel)
  | S fuel' =>
      if depth =? 0 then ret (Fin 0)
      else
        let* win := check_win in
        if negb (win =? 0) then ret (Fin (win + depth))
        else
          let* available_moves := find_legal_moves in
          match available_moves with
          | [] => ret (Fin 0)
          | _ => search_loop (search_fuel fuel' (depth - 1)) available_moves alpha beta
          end
  end.

(** Every recursive call of [search] follows a [make_move], so the nesting
    never exceeds the number of cells by more than one. *)
Definition search (depth : Z) (alpha beta : num) : M num :=
  fun m => search_fuel (S (length (Board.board (board m)))) depth alpha beta m.

Fixpoint search_root_loop (depth : Z) (moves : list Z)
                          (best_eval : num) (best_move : option Z) : M (option Z) :=
  match moves with
  | [] => ret best_move
  | move :: rest =>
      make_move move ;;
      let* evaluation := search (depth - 1) NegInf PosInf in
      unmake_move move ;;
      if num_gtb evaluation best_eval
      then search_root_loop depth rest evaluation (Some move)
      else search_root_loop depth rest best_eval best_move
  end.

Definition search_root (depth : Z) : M (option Z) :=
  let* moves := find_legal_moves in
  search_root_loop depth moves NegInf None.

(** Running a list of moves from a state. *)
Fixpoint play (cells : list Z) : M unit :=
  match cells with
  | [] => ret tt
  | c :: rest => make_move c ;; play rest
  end.

Definition new_game (n : Z) (pieces : option Z) : TicTacToeManager :=
  match init (Board.create n) pieces with
  | Ret m => m
  | _ => mkManager (Board.create n) [] [] 1 n
  end.

(** Both sides move by [search_root(depth)] until a win or a full board;
    the result lists each move with the [check_win()] that followed it. *)
Fixpoint self_play (rounds : nat) (depth : Z) : M (list (Z * Z)) :=
  match rounds with
  | O => ret []
  | S rounds' =>
      let* moves := find_legal_moves in
      match moves with
      | [] => ret []
      | _ =>
          let* best := search_root depth in
          match best with
          | None => ret []
          | Some move =>
              make_move move ;;
              let* win := check_win in
              if negb (win =? 0) then ret [(move, win)]
              else
                let* rest := self_play rounds' depth in
                ret ((move, win) :: rest)
          end
      end
  end.

(** ** Reachable and consistent states *)

Definition cells (m : TicTacToeManager) : list Z := Board.board (board m).
Definition side (m : TicTacToeManager) : Z := Board.size (board m).

(** The legal moves of a state, as [find_legal_moves] returns them. *)
Definition legal_moves (m : TicTacToeManager) : list Z := legal_from 0 (cells m).

(** States that arise from a freshly constructed game on an empty board by
    moves into empty cells. *)
Inductive reachable : TicTacToeManager -> Prop :=
| reach_new n pieces :
    0 < n -> reachable (new_game n pieces)
| reach_move m c m' :
    reachable m -> c ∈ legal_moves m -> make_move c m = (m', Ret tt) ->
    reachable m'.

(** The history lists agree with the board: a cell is in a player's list
    exactly when the board holds that player's mark there. *)
Record consistent (m : TicTacToeManager) : Prop := mkConsistent {
  cons_side : 0 < side m;
  cons_len : Z.of_nat (length (cells m)) = side m * side m;
  cons_turn : turn m = 1 \/ turn m = -1;
  cons_crosses : forall c, c ∈ crosses m <-> 0 <= c /\ cells m !! Z.to_nat c = Some 1;
  cons_noughts : forall c, c ∈ noughts m <-> 0 <= c /\ cells m !! Z.to_nat c = Some (-1)
}.

(** The number of occupied (nonzero) cells of a board. *)
Definition occupied (l : list Z) : nat := length (filter (fun c : Z => c <> 0) l).

(** The state [make_move cell] leaves behind when it does not raise. *)
Definition moved (m : TicTacToeManager) (cell : Z) : TicTacToeManager :=
  mkManager (Board.mk (side m) (<[Z.to_nat cell := turn m]> (cells m)))
            (if turn m =? 1 then crosses m ++ [cell] else crosses m)
            (if turn m =? 1 then noughts m else noughts m ++ [cell])
            (turn m * -1) (pieces_to_win m).

(** ** Grid geometry and lines *)

(** Cell [i] is at column [i mod size], row [i div size]. *)
Definition col (m : TicTacToeManager) (c : Z) : Z := c `mod` side m.
Definition row (m : TicTacToeManager) (c : Z) : Z := c `div` side m.
Definition index (m : TicTacToeManager) (x y : Z) : Z := y * side m + x.
Definition on_grid (m : TicTacToeManager) (x y : Z) : Prop :=
  (0 <= x < side m) /\ (0 <= y < side m).

(** The grid point [(x, y)] exists and holds the mark [p]. *)
Definition mark_at (m : TicTacToeManager) (x y p : Z) : Prop :=
  on_grid m x y /\ cells m !! Z.to_nat (index m x y) = Some p.

(** [pieces_to_win] consecutive cells marked [p], from [(x, y)] along [d]. *)
Definition line (m : TicTacToeManager) (p x y : Z) (d : Z * Z) : Prop :=
  forall j, 0 <= j < pieces_to_win m -> mark_at m (x + d.1 * j) (y + d.2 * j) p.

(** The history list of the player whose mark is [p]. *)
Definition placed (m : TicTacToeManager) (p : Z) : list Z :=
  if p =? 1 then crosses m else noughts m.

(** Player [p] has [pieces_to_win] consecutive cells of their mark in one of
    the 8 directions, through one of their placed cells. *)
Definition has_won (m : TicTacToeManager) (p : Z) : Prop :=
  exists x y d j,
    d ∈ directions /\ line m p x y d /\
    (0 <= j < pieces_to_win m) /\
    index m (x + d.1 * j) (y + d.2 * j) ∈ placed m p.

(** The index subscripted at step [i] of the walk from [cell] along [d]. *)
Definition step_index (m : TicTacToeManager) (cell : Z) (d : Z * Z) (i : Z) : Z :=
  cell + (d.1 + d.2 * side m) * i.

(** A winning direction from [cell]: the [pieces_to_win - 1] further points
    along [d] are on the grid and hold [v]. *)
Definition wins_along (m : TicTacToeManager) (cell v : Z) (d : Z * Z) : Prop :=
  forall j, 1 <= j < pieces_to_win m ->
    mark_at m (col m cell + d.1 * j) (row m cell + d.2 * j) v.

(** ** The unpruned reference search *)

Definition num_le (a b : num) : Prop :=
  match a, b with
  | NegInf, _ => True
  | _, PosInf => True
  | Fin x, Fin y => x <= y
  | _, _ => False
  end.

Definition num_lt (a b : num) : Prop :=
  match a, b with
  | PosInf, _ => False
  | _, NegInf => False
  | Fin x, Fin y => x < y
  | _, _ => True
  end.

Definition num_max (a b : num) : num := if num_leb a b then b else a.

(** The best negated child value over [moves]; [value] evaluates the state
    reached by a move. *)
Fixpoint best_reply (value : TicTacToeManager -> outcome num)
                    (m : TicTacToeManager) (moves : list Z) : outcome num :=
  match moves with
  | [] => Ret NegInf
  | cell :: rest =>
      match value (make_move cell m).1 with
      | Ret v =>
          match best_reply value m rest with
          | Ret best => Ret (num_max (neg v) best)
          | Raise e => Raise e
          | OutOfFuel => OutOfFuel
          end
      | Raise e => Raise e
      | OutOfFuel => OutOfFuel
      end
  end.

(** Exhaustive negamax without bounds, over the terminal values of
    [search]: 0 at depth 0, [win + depth] when the player who just moved
    has won, 0 when no move is left, and otherwise the largest negated value
    of a child one level shallower. *)
Fixpoint negamax_fuel (fuel : nat) (depth : Z) (m : TicTacToeManager) : outcome num :=
  match fuel with
  | O => OutOfFuel
  | S fuel' =>
      if depth =? 0 then Ret (Fin 0)
      else
        match (check_win m).2 with
        | Ret win =>
            if negb (win =? 0) then Ret (Fin (win + depth))
            else
              match legal_moves m with
              | [] => Ret (Fin 0)
              | moves => best_reply (negamax_fuel fuel' (depth - 1)) m moves
              end
        | Raise e => Raise e
        | OutOfFuel => OutOfFuel
        end
  end.

Definition negamax (depth : Z) (m : TicTacToeManager) : outcome num :=
  negamax_fuel (S (length (cells m))) depth m.

(** What a bounded search result [r] must satisfy when the exact value is
    [v]: exact inside the window, on the right side of the bound outside. *)
Definition within_window (alpha beta v r : num) : Prop :=
  (num_le v alpha -> num_le r alpha) /\
  (num_lt alpha v -> num_lt v beta -> r = v) /\
  (num_le beta v -> num_le beta r).

(** The same for the move loop, which returns a bound itself when the best
    reply falls outside the window. *)
Definition loop_window (alpha beta best r : num) : Prop :=
  (num_le best alpha -> r = alpha) /\
  (num_lt alpha best -> num_lt best beta -> r = best) /\
  (num_le beta best -> r = beta).

(** The evaluation [search_root] gives to [move]. *)
Definition move_eval (depth : Z) (m : TicTacToeManager) (move : Z) : outcome num :=
  ((make_move move ;; search (depth - 1) NegInf PosInf) m).2.

(** ** Instances and the boards they point to *)

Module Heap.

(** [Board] objects live in a store, by address.  An instance holds the
    address of its board; its two lists and its integers are its own. *)
Record instance := mk {
  board_at : nat;
  own_crosses : list Z;
  own_noughts : list Z;
  own_turn : Z;
  own_pieces_to_win : Z
}.

(** The address of the [Board(3)] of the signature
    [def __init__(self, board: Board = Board(3), ...)]: the default value is
    evaluated once, when the [def] statement runs. *)
Definition default_board : nat := 0%nat.

Definition initial : gmap nat Board.t := {[ default_board := Board.create 3 ]}.

(** [Board(n)] evaluated by a caller: a new object at an unused address. *)
Definition new_board (n : Z) (h : gmap nat Board.t) : nat * gmap nat Board.t :=
  let a := fresh (dom h) in (a, <[a := Board.create n]> h).

(** The instance together with the board it points to. *)
Definition view (h : gmap nat Board.t) (o : instance) : option TicTacToeManager :=
  match h !! board_at o with
  | Some b =>
      Some (mkManager b (own_crosses o) (own_noughts o) (own_turn o)
                      (own_pieces_to_win o))
  | None => None
  end.

(** [TicTacToeManager(board, pieces_to_win)]; an argument left out is
    [None], and a missing [board] is the default object. *)
Definition construct (b : option nat) (pieces : option Z)
                     (h : gmap nat Board.t) : option instance :=
  let a := match b with Some a => a | None => default_board end in
  match h !! a with
  | Some bd =>
      match init bd pieces with
      | Ret m => Some (mk a (crosses m) (noughts m) (turn m) (pieces_to_win m))
      | _ => None
      end
  | None => None
  end.

(** Running a method on an instance: it works on the board object at the
    instance's board address and what it writes there stays in the store. *)
Definition run {A} (c : M A) (o : instance) (h : gmap nat Board.t)
  : option (instance * gmap nat Board.t * outcome A) :=
  match view h o with
  | Some m =>
      let '(m', r) := c m in
      Some (mk (board_at o) (crosses m') (noughts m') (turn m') (pieces_to_win m'),
            <[board_at o := board m']> h, r)
  | None => None
  end.

End Heap.

(** Moving into [cell] wins at once: [check_win] right after the move
    returns 1. *)
Definition wins_at_once (m : TicTacToeManager) (cell : Z) : Prop :=
  ((make_move cell ;; check_win) m).2 = Ret 1.

(** ** The training environment ([environment/tictactoe_gym]) *)

Module Gym.

(** The [info] dictionary of a finished step: keys [step], [win], [reward]. *)
Record step_info := mkInfo { info_step : Z; info_win : bool; info_reward : Z }.

(** [TicTacToeEnv]: its adversary works on the same manager object, and
    [moves] is [action_space.legal_moves] ([action_space.n] is set once by
    the constructor). *)
Record TicTacToeEnv := mkEnv {
  env_depth : Z;
  env_size : Z;
  manager : TicTacToeManager;
  space_n : nat;
  moves : list Z
}.

Definition E (A : Type) : Type := TicTacToeEnv -> TicTacToeEnv * outcome A.

Definition retE {A} (a : A) : E A := fun env => (env, Ret a).
Definition raiseE {A} (e : exn) : E A := fun env => (env, Raise e).
Definition bindE {A B} (c : E A) (k : A -> E B) : E B :=
  fun env =>
    match c env with
    | (env', Ret a) => k a env'
    | (env', Raise e) => (env', Raise e)
    | (env', OutOfFuel) => (env', OutOfFuel)
    end.
Definition getE : E TicTacToeEnv := fun env => (env, Ret env).

(** A method of the manager called through [self.manager]. *)
Definition on_manager {A} (c : M A) : E A :=
  fun env =>
    let '(m', r) := c (manager env) in
    (mkEnv (env_depth env) (env_size env) m' (space_n env) (moves env), r).

(** [self.action_space.legal_moves = l] *)
Definition set_moves (l : list Z) : E unit :=
  fun env =>
    (mkEnv (env_depth env) (env_size env) (manager env) (space_n env) l, Ret tt).

Notation "'let+' x := c 'in' k" := (bindE c (fun x => k))
  (at level 10, x name, c at level 100, k at level 200) : py_scope.
Notation "c ;;+ k" := (bindE c (fun _ => k))
  (at level 100, k at level 200, right associativity) : py_scope.

Section Env.

(** [Board.get_uid] is not among the sources; the environment only passes
    its result on as the observation. *)
Variable get_uid : Board.t -> Z.



(** [step]: [check_win] returns an integer on every path, so
    [reward is not None] holds and the method returns at its second
    [return]; the adversary's reply after it is never run. *)
Definition step (action : Z)
  : E (Z * Z * bool * bool * option step_info) :=
  let+ l := on_manager find_legal_moves in
  if negb (bool_decide (action ∈ l)) then
    let+ env := getE in
    retE (get_uid (board (manager env)), -10, false, false, None)
  else
    on_manager (make_move action) ;;+
    let+ reward := on_manager check_win in
    let+ env := getE in
    retE (get_uid (board (manager env)), - reward, true, false,
          Some (mkInfo action true (- reward))).

(** [close] *)
Definition close : E Z := retE 0.

End Env.

(** [MoveSpace.sample]: [pick] stands for the draw of [random.choice],
    which raises IndexError on an empty list. *)
Definition sample (pick : nat) : E Z :=
  let+ env := getE in
  match moves env with
  | [] => raiseE IndexError
  | first :: others =>
      match (first :: others) !! (pick mod length (first :: others))%nat with
      | None => raiseE IndexError
      | Some move =>
          match Py.remove (moves env) move with
          | None => raiseE ValueError
          | Some l' => set_moves l' ;;+ retE move
          end
      end
  end.

End Gym.

(** ** Text layout and the button's image cache ([src/gui_elements.py]) *)

Module Gui.

(** A word as [__create_text] adds it to a line: followed by a space. *)
Definition spaced (word : string) : string := word +:+ " ".

(** All the lines one after another. *)
Definition flat (lines : list string) : string := foldr String.append "" lines.

Section Text.

(** [font.size(text)[0]], the rendered width of a text in the font built by
    [__create_font]: pygame's, not among the sources. *)
Variable text_width : string -> Z.

(** [self.position[2]], the width of the box. *)
Variable box_width : Z.

(** The [for word in words] loop of [StylizedText.__create_text] with the
    [lines.append(line)] that follows it; [words] is [self._content.split()]. *)
Fixpoint wrap_words (words : list string) (lines : list string)
                    (line : string) (line_width : Z) : list string :=
  match words with
  | [] => lines ++ [line]
  | word :: rest =>
      let word_width := text_width (word +:+ " ") in
      if line_width + word_width >=? box_width
      then wrap_words rest (lines ++ [line]) ("" +:+ (word +:+ " ")) (0 + word_width)
      else wrap_words rest lines (line +:+ (word +:+ " ")) (line_width + word_width)
  end.

Definition create_lines (words : list string) : list string :=
  wrap_words words [] "" 0.



End Text.

Section Cache.

(** Images and pygame's [image.load(...).convert_alpha()], [get_size] and
    [transform.smoothscale]; a texture path is the dictionary key. *)
Variable image : Type.
Variable load : string -> image.
Variable get_size : image -> Z * Z.
Variable smoothscale : image -> Z * Z -> image.

(** The [os.PathLike] branch of [Button.render] up to the [blit]: the image
    drawn and [self._image_cache] afterwards. *)
Definition texture_image (cache : gmap string image) (texture : string)
                         (hitbox_size : Z * Z) : image * gmap string image :=
  match cache !! texture with
  | None =>
      let img := load texture in
      if bool_decide (get_size img <> hitbox_size) then
        let img := smoothscale img hitbox_size in
        (img, <[texture := img]> ∅)
      else (img, cache)
  | Some img => (img, cache)
  end.

(** The cache after a series of renders, each with the button's texture
    and hitbox size at that time. *)
Definition render_all (cache : gmap string image)
                      (renders : list (string * (Z * Z))) : gmap string image :=
  foldl (fun c r => (texture_image c r.1 r.2).2) cache renders.

End Cache.

End Gui.

(** ** Python lists *)

Section PyLists.
Context {A : Type}.
Implicit Types (l : list A) (i : Z).

Lemma norm_index_nonneg l i :
  0 <= i < Z.of_nat (length l) -> Py.norm_index l i = Some (Z.to_nat i).
Proof.
  intros H. unfold Py.norm_index.
  destruct (0 <=? i) eqn:E1; [|lia].
  destruct (i <? Z.of_nat (length l)) eqn:E2; [reflexivity|lia].
Qed.

Lemma getitem_nonneg l i :
  0 <= i < Z.of_nat (length l) -> Py.getitem l i = l !! Z.to_nat i.
Proof. intros H. unfold Py.getitem. by rewrite norm_index_nonneg. Qed.

Lemma setitem_nonneg l i v :
  0 <= i < Z.of_nat (length l) -> Py.setitem l i v = Some (<[Z.to_nat i := v]> l).
Proof. intros H. unfold Py.setitem. by rewrite norm_index_nonneg. Qed.

Lemma lookup_Z_range l i x :
  0 <= i -> l !! Z.to_nat i = Some x -> 0 <= i < Z.of_nat (length l).
Proof. intros H0 H. apply lookup_lt_Some in H. lia. Qed.
End PyLists.

Lemma remove_app_fresh l x : x ∉ l -> Py.remove (l ++ [x]) x = Some l.
Proof.
  induction l as [|y l IH]; simpl; intros Hx.
  - by rewrite Z.eqb_refl.
  - apply not_elem_of_cons in Hx as [Hne Hx].
    destruct (y =? x) eqn:E; [lia|]. by rewrite IH.
Qed.

(** ** Legal moves *)

Lemma elem_of_legal_from i l c :
  c ∈ legal_from i l <-> i <= c /\ l !! Z.to_nat (c - i) = Some 0.
Proof.
  revert i. induction l as [|x l IH]; intros i; simpl.
  - split; [intros H; inversion H | intros [_ H]; discriminate].
  - assert (Hstep : c ∈ legal_from (i + 1) l <->
                    i < c /\ (x :: l) !! Z.to_nat (c - i) = Some 0).
    { rewrite IH. split.
      - intros [H1 H2]. split; [lia|].
        replace (Z.to_nat (c - i)) with (S (Z.to_nat (c - (i + 1)))) by lia. done.
      - intros [H1 H2]. split; [lia|].
        replace (Z.to_nat (c - i)) with (S (Z.to_nat (c - (i + 1)))) in H2 by lia. done. }
    destruct (x =? 0) eqn:E.
    + rewrite elem_of_cons, Hstep. split.
      * intros [->|[H1 H2]]; [|split; [lia|done]].
        split; [lia|]. rewrite Z.sub_diag. simpl. f_equal. lia.
      * intros [H1 H2]. destruct (decide (c = i)) as [->|Hne]; [by left|].
        right. split; [lia|done].
    + rewrite Hstep. split.
      * intros [H1 H2]. split; [lia|done].
      * intros [H1 H2]. split; [|done].
        destruct (decide (c = i)) as [->|Hne]; [|lia].
        rewrite Z.sub_diag in H2. simpl in H2. injection H2 as ->. lia.
Qed.

Lemma elem_of_legal_moves m c :
  c ∈ legal_moves m <-> 0 <= c /\ cells m !! Z.to_nat c = Some 0.
Proof. unfold legal_moves. rewrite elem_of_legal_from. by rewrite Z.sub_0_r. Qed.

Lemma legal_from_lower i l c : c ∈ legal_from i l -> i <= c.
Proof. rewrite elem_of_legal_from. tauto. Qed.

Lemma legal_from_sorted i l : StronglySorted Z.lt (legal_from i l).
Proof.
  revert i. induction l as [|x l IH]; intros i; simpl; [constructor|].
  destruct (x =? 0); [|apply IH].
  constructor; [apply IH|].
  apply Forall_forall. intros c Hc. apply legal_from_lower in Hc. lia.
Qed.

Lemma legal_from_length i l :
  (length (legal_from i l) + occupied l = length l)%nat.
Proof.
  unfold occupied. revert i. induction l as [|x l IH]; intros i; simpl; [done|].
  destruct (x =? 0) eqn:E.
  - rewrite filter_cons_False by lia. simpl. rewrite IH. done.
  - rewrite filter_cons_True by lia. simpl. rewrite <- (IH (i + 1)). lia.
Qed.

Lemma legal_from_insert i l k v :
  l !! k = Some 0 -> v <> 0 ->
  S (length (legal_from i (<[k:=v]> l))) = length (legal_from i l).
Proof.
  revert i k. induction l as [|x l IH]; intros i k Hk Hv; [done|].
  destruct k as [|k]; simpl in *.
  - injection Hk as ->. simpl. destruct (v =? 0) eqn:E; [lia|done].
  - destruct (x =? 0); simpl; rewrite <- (IH (i + 1) k Hk Hv); done.
Qed.

(** ** Making and unmaking a move *)

Lemma make_move_in_range m c :
  0 <= c < Z.of_nat (length (cells m)) -> make_move c m = (moved m c, Ret tt).
Proof.
  intros Hc. unfold moved, cells, side in *.
  cbv [make_move bind store_cell get modify raise].
  destruct (turn m =? 1) eqn:Et; simpl; rewrite setitem_nonneg by done;
    reflexivity.
Qed.

Lemma legal_in_range m c :
  c ∈ legal_moves m -> 0 <= c < Z.of_nat (length (cells m)).
Proof.
  rewrite elem_of_legal_moves. intros [H0 H]. eapply lookup_Z_range; eauto.
Qed.

Lemma make_move_legal m c :
  c ∈ legal_moves m -> make_move c m = (moved m c, Ret tt).
Proof. intros H. apply make_move_in_range, legal_in_range, H. Qed.

Lemma unmake_move_moved m c :
  c ∈ legal_moves m -> c ∉ crosses m -> c ∉ noughts m ->
  unmake_move c (moved m c) = (m, Ret tt).
Proof.
  intros Hc Hx Ho.
  pose proof (legal_in_range _ _ Hc) as Hr.
  apply elem_of_legal_moves in Hc as [_ Hz].
  assert (Hback : <[Z.to_nat c := 0]> (<[Z.to_nat c := turn m]> (cells m)) = cells m).
  { rewrite list_insert_insert_eq. by apply list_insert_id. }
  unfold moved. cbv [unmake_move bind store_cell get modify raise]. simpl.
  destruct m as [[s b] xs os t k]. unfold cells, side in *. simpl in *.
  destruct (t =? 1) eqn:Et.
  - apply Z.eqb_eq in Et. subst t. simpl.
    rewrite remove_app_fresh by done. simpl.
    rewrite setitem_nonneg by (rewrite length_insert; done). simpl.
    unfold set_turn, set_board_cells, set_crosses. simpl. by rewrite Hback.
  - destruct (t * -1 =? -1) eqn:Et'; [lia|].
    rewrite remove_app_fresh by done. simpl.
    rewrite setitem_nonneg by (rewrite length_insert; done). simpl.
    unfold set_turn, set_board_cells, set_noughts. simpl. rewrite Hback.
    do 2 f_equal. lia.
Qed.

Lemma consistent_fresh m c :
  consistent m -> c ∈ legal_moves m -> (c ∉ crosses m) /\ (c ∉ noughts m).
Proof.
  intros Hm Hc. apply elem_of_legal_moves in Hc as [_ Hz].
  split; intros Hin.
  - apply (cons_crosses m Hm) in Hin as [_ Hin]. congruence.
  - apply (cons_noughts m Hm) in Hin as [_ Hin]. congruence.
Qed.

Lemma lookup_moved m c k p :
  c ∈ legal_moves m -> 0 <= k -> p <> 0 ->
  (<[Z.to_nat c := turn m]> (cells m)) !! Z.to_nat k = Some p <->
  (k = c /\ p = turn m) \/ (k <> c /\ cells m !! Z.to_nat k = Some p).
Proof.
  intros Hc Hk Hp. pose proof (legal_in_range _ _ Hc) as Hr.
  apply elem_of_legal_moves in Hc as [H0 Hz].
  destruct (decide (k = c)) as [->|Hne].
  - rewrite list_lookup_insert_eq by lia. split.
    + intros [= <-]. by left.
    + intros [[_ ->]|[? _]]; done.
  - rewrite list_lookup_insert_ne by lia. split; [by right|].
    intros [[? _]|[_ ?]]; done.
Qed.

Lemma consistent_moved m c :
  consistent m -> c ∈ legal_moves m -> consistent (moved m c).
Proof.
  intros Hm Hc. pose proof (legal_in_range _ _ Hc) as Hr.
  pose proof Hc as Hc'. apply elem_of_legal_moves in Hc' as [H0 Hz].
  destruct Hm as [Hs Hl Ht Hx Ho].
  constructor; unfold cells, side, moved in *; simpl.
  - done.
  - by rewrite length_insert.
  - lia.
  - intros k. destruct (turn m =? 1) eqn:Et.
    + apply Z.eqb_eq in Et. rewrite elem_of_app, list_elem_of_singleton, Hx.
      split.
      * intros [[Hk Hv]| ->]; (split; [lia|]).
        -- apply (lookup_moved m c k 1); [done|done|done|]. right.
           split; [|done]. intros ->. unfold cells in Hz. congruence.
        -- apply (lookup_moved m c c 1); [done|done|done|]. left. done.
      * intros [Hk Hv]. apply (lookup_moved m c k 1) in Hv; [|done|done|done].
        destruct Hv as [[-> _]|[_ Hv]]; [by right|by left].
    + rewrite Hx. split; intros [Hk Hv]; (split; [done|]).
      * apply (lookup_moved m c k 1); [done|done|done|]. right.
        split; [|done]. intros ->. unfold cells in Hz. congruence.
      * apply (lookup_moved m c k 1) in Hv; [|done|done|done].
        destruct Hv as [[_ Hv]|[_ Hv]]; [lia|done].
  - intros k. destruct (turn m =? 1) eqn:Et.
    + apply Z.eqb_eq in Et. rewrite Ho.
      split; intros [Hk Hv]; (split; [done|]).
      * apply (lookup_moved m c k (-1)); [done|done|done|]. right.
        split; [|done]. intros ->. unfold cells in Hz. congruence.
      * apply (lookup_moved m c k (-1)) in Hv; [|done|done|done].
        destruct Hv as [[_ Hv]|[_ Hv]]; [lia|done].
    + assert (turn m = -1) as Et' by lia.
      rewrite elem_of_app, list_elem_of_singleton, Ho. split.
      * intros [[Hk Hv]| ->]; (split; [lia|]).
        -- apply (lookup_moved m c k (-1)); [done|done|done|]. right.
           split; [|done]. intros ->. unfold cells in Hz. congruence.
        -- apply (lookup_moved m c c (-1)); [done|done|done|]. left. done.
      * intros [Hk Hv]. apply (lookup_moved m c k (-1)) in Hv; [|done|done|done].
        destruct Hv as [[-> _]|[_ Hv]]; [by right|by left].
Qed.

Lemma consistent_new n pieces : 0 < n -> consistent (new_game n pieces).
Proof.
  intros Hn. unfold new_game, init, Board.create.
  constructor; unfold cells, side; simpl.
  - done.
  - rewrite length_replicate. nia.
  - by left.
  - intros c. split; [intros H; inversion H|].
    intros [_ H]. apply lookup_replicate in H as [H _]. done.
  - intros c. split; [intros H; inversion H|].
    intros [_ H]. apply lookup_replicate in H as [H _]. done.
Qed.

Lemma reachable_consistent m : reachable m -> consistent m.
Proof.
  induction 1 as [n pieces Hn | m c m' Hr IH Hc Hmv].
  - by apply consistent_new.
  - rewrite make_move_legal in Hmv by done. injection Hmv as <-.
    by apply consistent_moved.
Qed.

Lemma make_unmake m c :
  consistent m -> c ∈ legal_moves m ->
  (make_move c ;; unmake_move c) m = (m, Ret tt).
Proof.
  intros Hm Hc. destruct (consistent_fresh m c Hm Hc) as [Hx Ho].
  unfold bind at 1. rewrite make_move_legal by done.
  by apply unmake_move_moved.
Qed.

Lemma legal_moves_moved m c :
  consistent m -> c ∈ legal_moves m ->
  S (length (legal_moves (moved m c))) = length (legal_moves m).
Proof.
  intros Hm Hc. apply elem_of_legal_moves in Hc as [H0 Hz].
  unfold legal_moves, moved, cells. simpl. apply legal_from_insert; [done|].
  destruct (cons_turn m Hm); lia.
Qed.

(** C1.  From any reachable state and any currently empty cell,
    [make_move(cell)] followed by [unmake_move(cell)] raises nothing and
    leaves the board cells, the turn and both history lists (the whole
    instance) exactly as they were. *)
Theorem make_move_unmake_move_roundtrip m cell :
  reachable m -> cell ∈ legal_moves m ->
  (make_move cell ;; unmake_move cell) m = (m, Ret tt).
Proof.
  intros Hr Hc. apply make_unmake; [|done]. by apply reachable_consistent.
Qed.

Lemma make_move_unmake_move_roundtrip_witness :
  (make_move 4 ;; unmake_move 4) (new_game 3 None) = (new_game 3 None, Ret tt).
Proof.
  apply make_move_unmake_move_roundtrip.
  - apply reach_new. lia.
  - apply elem_of_legal_moves. split; [lia | reflexivity].
Defined.

(** C5.  On a board of side [n] with its [n*n] cells, [find_legal_moves]
    returns exactly the indices whose cell is 0, in strictly ascending
    order; the length of the result is [n*n] minus the number of nonzero
    cells; and the instance is left as it was. *)
Theorem find_legal_moves_spec m n :
  side m = n -> Z.of_nat (length (cells m)) = n * n ->
  exists l,
    find_legal_moves m = (m, Ret l) /\
    (forall i, i ∈ l <-> 0 <= i < n * n /\ Py.getitem (cells m) i = Some 0) /\
    StronglySorted Z.lt l /\
    Z.of_nat (length l) = n * n - Z.of_nat (occupied (cells m)).
Proof.
  intros Hs Hl. exists (legal_moves m). split; [reflexivity|].
  split; [|split].
  - intros i. rewrite elem_of_legal_moves. split.
    + intros [H0 Hz]. pose proof (lookup_Z_range _ _ _ H0 Hz) as Hr.
      split; [lia|]. by rewrite getitem_nonneg.
    + intros [Hr Hz]. rewrite getitem_nonneg in Hz by lia. split; [lia|done].
  - apply legal_from_sorted.
  - pose proof (legal_from_length 0 (cells m)) as H. unfold legal_moves. lia.
Qed.

Lemma find_legal_moves_spec_witness :
  exists l,
    find_legal_moves (moved (new_game 3 None) 4) = (moved (new_game 3 None) 4, Ret l) /\
    (forall i, i ∈ l <-> 0 <= i < 3 * 3 /\
                 Py.getitem (cells (moved (new_game 3 None) 4)) i = Some 0) /\
    StronglySorted Z.lt l /\
    Z.of_nat (length l) = 3 * 3 - Z.of_nat (occupied (cells (moved (new_game 3 None) 4))).
Proof.
  apply (find_legal_moves_spec (moved (new_game 3 None) 4) 3); reflexivity.
Defined.

(** ** The direction walk *)

Lemma index_col m x y : 0 <= x < side m -> col m (index m x y) = x.
Proof.
  intros Hx. unfold col, index. symmetry.
  apply (Z.mod_unique_pos _ _ y); [done|lia].
Qed.

Lemma index_row m x y : 0 <= x < side m -> row m (index m x y) = y.
Proof.
  intros Hx. unfold row, index. symmetry.
  apply (Z.div_unique_pos _ _ y x); [done|lia].
Qed.

Lemma index_col_row m c : 0 < side m -> index m (col m c) (row m c) = c.
Proof.
  intros Hs. unfold index, col, row.
  pose proof (Z.div_mod c (side m)). lia.
Qed.

Lemma col_row_on_grid m c :
  0 < side m -> 0 <= c < side m * side m -> on_grid m (col m c) (row m c).
Proof.
  intros Hs Hc. unfold on_grid, col, row. split.
  - apply Z.mod_pos_bound. done.
  - split; [apply Z.div_pos; lia|]. apply Z.div_lt_upper_bound; lia.
Qed.

Lemma on_grid_index_range m x y :
  on_grid m x y -> 0 <= index m x y < side m * side m.
Proof. unfold on_grid, index. nia. Qed.

Lemma step_index_coords m cell d i :
  0 < side m ->
  step_index m cell d i = index m (col m cell + d.1 * i) (row m cell + d.2 * i).
Proof.
  intros Hs. unfold step_index. rewrite <- (index_col_row m cell Hs) at 1.
  unfold index. lia.
Qed.

Lemma check_borders_on_grid m x y d :
  0 < side m -> on_grid m x y ->
  exists b, check_borders m (index m x y) d = Some b /\
            (b = true <-> on_grid m (x + d.1) (y + d.2)).
Proof.
  intros Hs [Hx Hy]. unfold check_borders. fold (side m).
  destruct (side m =? 0) eqn:E; [lia|].
  fold (col m (index m x y)). fold (row m (index m x y)).
  rewrite index_col, index_row by done.
  eexists. split; [reflexivity|]. unfold on_grid.
  rewrite !andb_true_iff, !Z.leb_le, !Z.ltb_lt. tauto.
Qed.

Section Walk.
Variables (m : TicTacToeManager) (cell cell_content : Z) (d : Z * Z).
Hypothesis Hside : 0 < side m.
Hypothesis Hlen : Z.of_nat (length (cells m)) = side m * side m.

Local Notation "'x0'" := (col m cell).
Local Notation "'y0'" := (row m cell).

(** What one run of the inner loop does, started at step [i] with the
    previous point of the walk on the grid. *)
Lemma walk_from n : forall i,
  on_grid m (x0 + d.1 * (i - 1)) (y0 + d.2 * (i - 1)) ->
  forall reads e,
  walk m cell cell_content d (step_index m cell d (i - 1))
       (seqZ i (Z.of_nat n)) = (reads, e) ->
  (forall (k : nat) idx, reads !! k = Some idx ->
     idx = step_index m cell d (i + Z.of_nat k) /\
     on_grid m (x0 + d.1 * (i + Z.of_nat k)) (y0 + d.2 * (i + Z.of_nat k))) /\
  (forall ex, e <> Raised ex) /\
  (e = Completed <->
   forall j, i <= j < i + Z.of_nat n ->
     mark_at m (x0 + d.1 * j) (y0 + d.2 * j) cell_content).
Proof.
  induction n as [|n IH]; intros i Hprev reads e Hw.
  - simpl in Hw. injection Hw as <- <-.
    split; [intros k idx H; discriminate|]. split; [done|].
    split; [intros _ j Hj; lia|done].
  - rewrite seqZ_cons in Hw by lia.
    replace (Z.pred (Z.of_nat (S n))) with (Z.of_nat n) in Hw by lia.
    simpl in Hw.
    rewrite (step_index_coords m cell d (i - 1) Hside) in Hw at 1.
    destruct (check_borders_on_grid m _ _ d Hside Hprev) as (b & Hb & Hbg).
    rewrite Hb in Hw.
    replace (col m cell + d.1 * (i - 1) + d.1) with (x0 + d.1 * i) in Hbg
      by lia.
    replace (row m cell + d.2 * (i - 1) + d.2) with (y0 + d.2 * i) in Hbg
      by lia.
    destruct b.
    + assert (Hg : on_grid m (x0 + d.1 * i) (y0 + d.2 * i)) by (by apply Hbg).
      fold (side m) in Hw. fold (cells m) in Hw.
      fold (step_index m cell d i) in Hw.
      pose proof (on_grid_index_range _ _ _ Hg) as Hrange.
      rewrite <- (step_index_coords m cell d i Hside) in Hrange.
      rewrite getitem_nonneg in Hw by lia.
      destruct (cells m !! Z.to_nat (step_index m cell d i)) as [v|] eqn:Hv;
        [|apply lookup_ge_None in Hv; lia].
      destruct (v =? cell_content) eqn:Ev; simpl in Hw.
      * apply Z.eqb_eq in Ev. subst v.
        destruct (walk m cell cell_content d (step_index m cell d i)
                       (seqZ (Z.succ i) (Z.of_nat n))) as [reads' e'] eqn:Hrec.
        injection Hw as <- <-.
        replace (step_index m cell d i)
          with (step_index m cell d (Z.succ i - 1)) in Hrec by (f_equal; lia).
        apply IH in Hrec as (Hreads & Hraise & Hcompl);
          [|by replace (Z.succ i - 1) with i by lia].
        split; [|split; [done|]].
        -- intros [|k] idx Hk; simpl in Hk.
           ++ injection Hk as <-. rewrite Z.add_0_r. done.
           ++ apply Hreads in Hk.
              by replace (i + Z.of_nat (S k)) with (Z.succ i + Z.of_nat k) by lia.
        -- rewrite Hcompl. split; intros H j Hj.
           ++ destruct (decide (j = i)) as [->|Hne]; [|apply H; lia].
              split; [done|].
              by rewrite <- (step_index_coords m cell d i Hside).
           ++ apply H. lia.
      * injection Hw as <- <-. split; [|split; [done|]].
        -- intros [|k] idx Hk; simpl in Hk; [|done].
           injection Hk as <-. rewrite Z.add_0_r. done.
        -- split; [done|]. intros H. exfalso.
           destruct (H i ltac:(lia)) as [_ Hm].
           rewrite <- (step_index_coords m cell d i Hside) in Hm.
           rewrite Hv in Hm. injection Hm as ->. lia.
    + injection Hw as <- <-. split; [intros k idx H; discriminate|].
      split; [done|]. split; [done|]. intros H. exfalso.
      destruct (H i ltac:(lia)) as [Hg _].
      destruct Hbg as [_ Hbg]. specialize (Hbg Hg). done.
Qed.
End Walk.

Lemma range_of_nat a b : Py.range a b = seqZ a (Z.of_nat (Z.to_nat (b - a))).
Proof. unfold Py.range, seqZ. by rewrite Nat2Z.id. Qed.

Lemma walk_whole m cell cell_content d :
  0 < side m -> Z.of_nat (length (cells m)) = side m * side m ->
  0 <= cell < side m * side m ->
  forall reads e,
  walk m cell cell_content d cell (Py.range 1 (pieces_to_win m)) = (reads, e) ->
  (forall (k : nat) idx, reads !! k = Some idx ->
     idx = step_index m cell d (1 + Z.of_nat k) /\
     on_grid m (col m cell + d.1 * (1 + Z.of_nat k))
               (row m cell + d.2 * (1 + Z.of_nat k))) /\
  (forall ex, e <> Raised ex) /\
  (e = Completed <->
   forall j, 1 <= j < pieces_to_win m ->
     mark_at m (col m cell + d.1 * j) (row m cell + d.2 * j) cell_content).
Proof.
  intros Hs Hl Hc reads e Hw. rewrite range_of_nat in Hw.
  replace cell with (step_index m cell d (1 - 1)) in Hw at 2
    by (unfold step_index; lia).
  apply (walk_from m cell cell_content d Hs Hl) in Hw.
  - destruct Hw as (H1 & H2 & H3). split; [done|]. split; [done|].
    rewrite H3. split; intros H j Hj; apply H; lia.
  - replace (col m cell + d.1 * (1 - 1)) with (col m cell) by lia.
    replace (row m cell + d.2 * (1 - 1)) with (row m cell) by lia.
    by apply col_row_on_grid.
Qed.

(** ** Win detection *)

Lemma try_directions_spec m cell v ds :
  0 < side m -> Z.of_nat (length (cells m)) = side m * side m ->
  0 <= cell < side m * side m ->
  exists w, try_directions m cell v ds = Ret w /\ (w = 0 \/ w = 1) /\
            (w = 1 <-> exists d, d ∈ ds /\ wins_along m cell v d).
Proof.
  intros Hs Hl Hc. induction ds as [|d ds IH]; simpl.
  - exists 0. split; [done|]. split; [by left|].
    split; [done|]. intros (d & Hd & _). inversion Hd.
  - destruct (walk m cell v d cell (Py.range 1 (pieces_to_win m)))
      as [reads e] eqn:Hw.
    apply walk_whole in Hw as (_ & Hraise & Hcompl); [|done|done|done].
    simpl. destruct e as [| |ex]; [| |by destruct (Hraise ex)].
    + exists 1. split; [done|]. split; [by right|]. split; [|done].
      intros _. exists d. split; [left|]. unfold wins_along. by apply Hcompl.
    + destruct IH as (w & -> & Hw01 & Hw). exists w. split; [done|].
      split; [done|]. rewrite Hw. split.
      * intros (d' & Hd' & Hwin). exists d'. split; [by right|done].
      * intros (d' & Hd' & Hwin). apply elem_of_cons in Hd' as [->|Hd'].
        -- unfold wins_along in Hwin. apply Hcompl in Hwin. done.
        -- by exists d'.
Qed.

Lemma check_win_at_cell_spec m cell v :
  0 < side m -> Z.of_nat (length (cells m)) = side m * side m ->
  0 <= cell -> cells m !! Z.to_nat cell = Some v ->
  exists w, check_win_at_cell cell m = (m, Ret w) /\ (w = 0 \/ w = 1) /\
            (w = 1 <-> exists d, d ∈ directions /\ wins_along m cell v d).
Proof.
  intros Hs Hl H0 Hv. pose proof (lookup_Z_range _ _ _ H0 Hv) as Hr.
  unfold check_win_at_cell. fold (cells m).
  rewrite getitem_nonneg, Hv by done.
  destruct (try_directions_spec m cell v directions Hs Hl ltac:(lia))
    as (w & -> & Hw01 & Hw).
  by exists w.
Qed.

(** C4.  On a board of any side with its [side*side] cells, from any
    in-bounds starting cell and along any of the 8 directions, the walk of
    [check_win_at_cell] subscripts the board only at indices of grid points:
    the [k]-th index read is the index of the point [k+1] steps from the
    start along the direction, that point is on the grid (so no row
    wraparound), and the index is in [0, side*side); the walk raises nothing;
    when some point within [pieces_to_win - 1] steps is off the grid, the
    walk ends by [break], not by the winning [else]; and
    [check_win_at_cell] as a whole returns 0 or 1 without raising. *)
Theorem walk_stays_on_grid m cell cell_content d :
  0 < side m -> Z.of_nat (length (cells m)) = side m * side m ->
  0 <= cell < side m * side m -> d ∈ directions ->
  let w := walk m cell cell_content d cell (Py.range 1 (pieces_to_win m)) in
  (forall (k : nat) idx, w.1 !! k = Some idx ->
     (0 <= idx < side m * side m) /\
     idx = index m (col m cell + d.1 * (1 + Z.of_nat k))
                   (row m cell + d.2 * (1 + Z.of_nat k)) /\
     on_grid m (col m cell + d.1 * (1 + Z.of_nat k))
               (row m cell + d.2 * (1 + Z.of_nat k))) /\
  (forall ex, w.2 <> Raised ex) /\
  ((exists j, (1 <= j < pieces_to_win m) /\
              ~ on_grid m (col m cell + d.1 * j) (row m cell + d.2 * j)) ->
   w.2 = Broke) /\
  (exists r, check_win_at_cell cell m = (m, Ret r) /\ (r = 0 \/ r = 1)).
Proof.
  intros Hs Hl Hc Hd w.
  destruct w as [reads e] eqn:Hw. subst w.
  apply walk_whole in Hw as (H1 & H2 & H3); [|done|done|done]. simpl.
  split; [|split; [done|split]]; cycle 2.
  { destruct (cells m !! Z.to_nat cell) as [v|] eqn:Hv;
      [|apply lookup_ge_None in Hv; lia].
    destruct (check_win_at_cell_spec m cell v Hs Hl ltac:(lia) Hv)
      as (r & Hr & Hr01 & _).
    by exists r. }
  - intros k idx Hk. apply H1 in Hk as [-> Hg].
    rewrite step_index_coords by done.
    split; [by apply on_grid_index_range|]. done.
  - intros (j & Hj & Hoff). destruct e as [| |ex]; [|done|by destruct (H2 ex)].
    exfalso. apply Hoff. destruct H3 as [H3 _]. by destruct (H3 eq_refl j Hj).
Qed.

Lemma walk_stays_on_grid_witness :
  let m := new_game 3 None in
  let w := walk m 0 0 (1, 1) 0 (Py.range 1 (pieces_to_win m)) in
  (forall (k : nat) idx, w.1 !! k = Some idx ->
     (0 <= idx < side m * side m) /\
     idx = index m (col m 0 + (1, 1).1 * (1 + Z.of_nat k))
                   (row m 0 + (1, 1).2 * (1 + Z.of_nat k)) /\
     on_grid m (col m 0 + (1, 1).1 * (1 + Z.of_nat k))
               (row m 0 + (1, 1).2 * (1 + Z.of_nat k))) /\
  (forall ex, w.2 <> Raised ex) /\
  ((exists j, (1 <= j < pieces_to_win m) /\
              ~ on_grid m (col m 0 + (1, 1).1 * j) (row m 0 + (1, 1).2 * j)) ->
   w.2 = Broke) /\
  (exists r, check_win_at_cell 0 m = (m, Ret r) /\ (r = 0 \/ r = 1)).
Proof.
  apply (walk_stays_on_grid (new_game 3 None) 0 0 (1, 1)).
  - reflexivity.
  - reflexivity.
  - change (0 <= 0 < 9). lia.
  - unfold directions. set_solver.
Defined.

Lemma check_win_loop_spec m p l :
  0 < side m -> Z.of_nat (length (cells m)) = side m * side m ->
  (forall c, c ∈ l -> 0 <= c /\ cells m !! Z.to_nat c = Some p) ->
  exists w, check_win_loop l m = (m, Ret w) /\ (w = 0 \/ w = 1) /\
            (w = 1 <-> exists c d, c ∈ l /\ d ∈ directions /\ wins_along m c p d).
Proof.
  intros Hs Hl. induction l as [|c l IH]; intros Hin; simpl.
  - exists 0. split; [done|]. split; [by left|]. split; [done|].
    intros (c & d & Hc & _). inversion Hc.
  - destruct (Hin c ltac:(left)) as [H0 Hv].
    destruct (check_win_at_cell_spec m c p Hs Hl H0 Hv) as (w & Hrun & Hw01 & Hw).
    unfold bind. rewrite Hrun.
    destruct Hw01 as [-> | ->]; simpl.
    + destruct IH as (w' & -> & Hw01' & Hw'); [intros c' Hc'; apply Hin; by right|].
      exists w'. split; [done|]. split; [done|]. rewrite Hw'. split.
      * intros (c' & d & Hc' & Hd & Hwin). exists c', d. split; [by right|done].
      * intros (c' & d & Hc' & Hd & Hwin).
        apply elem_of_cons in Hc' as [->|Hc']; [|by exists c', d].
        assert (0 = 1); [|done]. apply Hw. by exists d.
    + exists 1. split; [done|]. split; [by right|]. split; [|done].
      intros _. destruct Hw as [Hw _]. destruct (Hw eq_refl) as (d & Hd & Hwin).
      exists c, d. split; [left|done].
Qed.

Lemma placed_spec m p c :
  consistent m -> p = 1 \/ p = -1 ->
  c ∈ placed m p <-> 0 <= c /\ cells m !! Z.to_nat c = Some p.
Proof.
  intros Hm [-> | ->]; unfold placed; simpl.
  - apply (cons_crosses m Hm).
  - apply (cons_noughts m Hm).
Qed.

Lemma check_win_spec m :
  consistent m -> 1 <= pieces_to_win m ->
  exists w, check_win m = (m, Ret w) /\ (w = 0 \/ w = 1) /\
            (w <> 0 <-> has_won m (- turn m)).
Proof.
  intros Hm Hk.
  pose proof (cons_side m Hm) as Hs. pose proof (cons_len m Hm) as Hl.
  assert (Hp : - turn m = 1 \/ - turn m = -1) by (destruct (cons_turn m Hm); lia).
  assert (Hlist : (if turn m =? -1 then crosses m else noughts m) = placed m (- turn m)).
  { unfold placed. destruct (cons_turn m Hm) as [-> | ->]; reflexivity. }
  destruct (check_win_loop_spec m (- turn m) (placed m (- turn m)) Hs Hl)
    as (w & Hrun & Hw01 & Hw).
  { intros c Hc. by apply (placed_spec m (- turn m) c Hm Hp). }
  exists w. unfold check_win, bind, get. rewrite Hlist. split; [done|].
  split; [done|].
  assert (Hw1 : w <> 0 <-> w = 1) by lia. rewrite Hw1, Hw. clear Hw1 Hw Hrun.
  split.
  - intros (c & d & Hc & Hd & Hwin). exists (col m c), (row m c), d, 0.
    apply (placed_spec m (- turn m) c Hm Hp) in Hc as Hc'. destruct Hc' as [H0 Hv].
    pose proof (lookup_Z_range _ _ _ H0 Hv) as Hr.
    split; [done|]. split; [|split; [lia|]].
    + intros j Hj. destruct (decide (j = 0)) as [->|Hne]; [|apply Hwin; lia].
      rewrite !Z.mul_0_r, !Z.add_0_r. split.
      * apply col_row_on_grid; lia.
      * by rewrite index_col_row.
    + rewrite !Z.mul_0_r, !Z.add_0_r. by rewrite index_col_row.
  - intros (x & y & d & j & Hd & Hline & Hj & Hin).
    destruct (Hline 0 ltac:(lia)) as [Hg Hv].
    rewrite !Z.mul_0_r, !Z.add_0_r in Hg, Hv.
    pose proof (on_grid_index_range _ _ _ Hg) as Hr. destruct Hg as [Hx Hy].
    exists (index m x y), d. split; [|split; [done|]].
    + apply (placed_spec m (- turn m) _ Hm Hp). split; [lia|done].
    + intros i Hi. rewrite index_col, index_row by done. apply Hline. lia.
Qed.

(** C3.  In a state whose history lists agree with the board (and with
    [pieces_to_win >= 1]), [check_win] raises nothing, returns 0 or 1, and
    returns nonzero exactly when the player who just moved (mark [- turn])
    has [pieces_to_win] consecutive cells of their mark along one of the 8
    directions through one of their placed cells.  In particular on a 3x3
    board with [pieces_to_win = 3], after the moves 0, 1, 4, 2, 8 (crosses on
    0, 4, 8, noughts on 1, 2), [check_win] returns 1. *)
Theorem check_win_iff_line m :
  consistent m -> 1 <= pieces_to_win m ->
  (exists w, check_win m = (m, Ret w) /\ (w = 0 \/ w = 1) /\
             (w <> 0 <-> has_won m (- turn m))) /\
  ((play [0; 1; 4; 2; 8] ;; check_win) (new_game 3 (Some 3))).2 = Ret 1.
Proof.
  intros Hm Hk. split; [by apply check_win_spec|]. reflexivity.
Qed.

Lemma check_win_iff_line_witness :
  let m := moved (moved (moved (new_game 2 (Some 2)) 0) 2) 3 in
  (exists w, check_win m = (m, Ret w) /\ (w = 0 \/ w = 1) /\
             (w <> 0 <-> has_won m (- turn m))) /\
  ((play [0; 1; 4; 2; 8] ;; check_win) (new_game 3 (Some 3))).2 = Ret 1.
Proof.
  apply (check_win_iff_line (moved (moved (moved (new_game 2 (Some 2)) 0) 2) 3)).
  - do 3 (apply consistent_moved;
          [|apply elem_of_legal_moves; split; [lia | reflexivity]]).
    apply consistent_new. lia.
  - simpl. lia.
Defined.

(** ** Extended integers *)

Lemma num_leb_le a b : num_leb a b = true <-> num_le a b.
Proof. destruct a, b; simpl; rewrite ?Z.leb_le; intuition congruence. Qed.

Lemma num_ltb_lt a b : num_ltb a b = true <-> num_lt a b.
Proof.
  unfold num_ltb. destruct a, b; simpl; rewrite ?negb_true_iff, ?Z.leb_gt;
    intuition congruence.
Qed.

Lemma num_leb_gt a b : num_leb a b = false <-> num_lt b a.
Proof.
  rewrite <- num_ltb_lt. unfold num_ltb. by rewrite negb_true_iff.
Qed.

Lemma num_ltb_ge a b : num_ltb a b = false <-> num_le b a.
Proof.
  rewrite <- num_leb_le. unfold num_ltb. by rewrite negb_false_iff.
Qed.

Lemma num_eq_iff (a b : num) :
  a = b <->
  match a, b with
  | NegInf, NegInf | PosInf, PosInf => True
  | Fin x, Fin y => x = y
  | _, _ => False
  end.
Proof. destruct a, b; split; (congruence || done). Qed.

(** Case analysis over every extended integer in sight, then arithmetic. *)
Ltac num_cases :=
  unfold num_max, within_window, loop_window in *;
  repeat match goal with
         | x : num |- _ => destruct x
         end;
  simpl in *;
  repeat match goal with
         | |- context [?a <=? ?b] => destruct (Z.leb_spec a b)
         end;
  simpl;
  repeat setoid_rewrite num_eq_iff; simpl;
  try solve [lia | tauto | intuition lia].

Ltac num_fin :=
  repeat match goal with
         | x : num |- _ => destruct x
         end;
  unfold num_max; simpl;
  repeat match goal with
         | |- context [?a <=? ?b] => destruct (Z.leb_spec a b)
         end;
  intros; first [done | eauto].

Lemma neg_lt a b : num_lt a b -> num_lt (neg b) (neg a).
Proof. num_cases. Qed.

Lemma bind_run {A B} (c : M A) (k : A -> M B) m m' a :
  c m = (m', Ret a) -> bind c k m = k a m'.
Proof. intros H. unfold bind. by rewrite H. Qed.

Lemma legal_moves_bound m : (length (legal_moves m) <= length (cells m))%nat.
Proof. pose proof (legal_from_length 0 (cells m)). unfold legal_moves. lia. Qed.

(** ** Alpha-beta against the unpruned search *)

Lemma search_loop_step rec c rest alpha beta m m1 rc :
  make_move c m = (m1, Ret tt) ->
  rec (neg beta) (neg alpha) m1 = (m1, Ret rc) ->
  unmake_move c m1 = (m, Ret tt) ->
  search_loop rec (c :: rest) alpha beta m =
  (if num_geb (neg rc) beta then ret beta
   else search_loop rec rest
          (if num_gtb (neg rc) alpha then neg rc else alpha) beta) m.
Proof.
  intros Hmk Hrec Hun. simpl.
  rewrite (bind_run _ _ _ _ _ Hmk), (bind_run _ _ _ _ _ Hrec),
    (bind_run _ _ _ _ _ Hun). reflexivity.
Qed.

Section AlphaBeta.
Variables (fuel : nat) (depth : Z).
Hypothesis child_ok : forall alpha beta m,
  consistent m -> (length (legal_moves m) < fuel)%nat -> num_lt alpha beta ->
  exists v r,
    negamax_fuel fuel depth m = Ret (Fin v) /\
    search_fuel fuel depth alpha beta m = (m, Ret r) /\
    within_window alpha beta (Fin v) r.

Lemma search_loop_spec m beta moves : forall alpha,
  consistent m -> (forall c, c ∈ moves -> c ∈ legal_moves m) ->
  (length (legal_moves m) <= fuel)%nat -> num_lt alpha beta ->
  exists best r,
    best_reply (negamax_fuel fuel depth) m moves = Ret best /\
    best <> PosInf /\ (moves <> [] -> exists v, best = Fin v) /\
    search_loop (search_fuel fuel depth) moves alpha beta m = (m, Ret r) /\
    loop_window alpha beta best r.
Proof.
  induction moves as [|c rest IH]; intros alpha Hm Hlegal Hfuel Hab.
  - exists NegInf, alpha. simpl. repeat split; try done.
    + intros H _. revert H Hab. clear. num_cases.
    + intros H. revert H Hab. clear. num_cases.
  - assert (Hc : c ∈ legal_moves m) by (apply Hlegal; left).
    pose proof (make_move_legal m c Hc) as Hmk.
    destruct (consistent_fresh m c Hm Hc) as [Hx Ho].
    pose proof (unmake_move_moved m c Hc Hx Ho) as Hun.
    pose proof (consistent_moved m c Hm Hc) as Hm1.
    pose proof (legal_moves_moved m c Hm Hc) as Hless.
    destruct (child_ok (neg beta) (neg alpha) (moved m c) Hm1 ltac:(lia)
                (neg_lt _ _ Hab)) as (vc & rc & Hnm & Hsr & Hwin).
    rewrite (search_loop_step _ c rest alpha beta m (moved m c) rc Hmk Hsr Hun).
    simpl. rewrite Hmk. simpl. rewrite Hnm.
    assert (Hrest : forall c', c' ∈ rest -> c' ∈ legal_moves m)
      by (intros c' Hc'; apply Hlegal; by right).
    destruct (num_geb (neg rc) beta) eqn:Hcut.
    + destruct (IH alpha Hm Hrest Hfuel Hab) as (best & r & -> & Hinf & _ & _ & _).
      eexists _, beta. split; [reflexivity|].
      apply num_leb_le in Hcut.
      split; [revert Hinf; clear; num_cases|].
      split; [intros _; revert Hinf; clear; num_fin|].
      split; [reflexivity|].
      revert Hcut Hwin Hab Hinf. clear. num_cases.
    + apply num_leb_gt in Hcut.
      destruct (num_gtb (neg rc) alpha) eqn:Hup.
      * apply num_ltb_lt in Hup.
        destruct (IH (neg rc) Hm Hrest Hfuel Hcut)
          as (best & r & -> & Hinf & _ & -> & Hloop).
        eexists _, r. split; [reflexivity|].
        split; [revert Hinf; clear; num_cases|].
        split; [intros _; revert Hinf; clear; num_fin|].
        split; [reflexivity|].
        revert Hcut Hup Hwin Hab Hinf Hloop. clear. num_cases.
      * apply num_ltb_ge in Hup.
        destruct (IH alpha Hm Hrest Hfuel Hab)
          as (best & r & -> & Hinf & _ & -> & Hloop).
        eexists _, r. split; [reflexivity|].
        split; [revert Hinf; clear; num_cases|].
        split; [intros _; revert Hinf; clear; num_fin|].
        split; [reflexivity|].
        revert Hcut Hup Hwin Hab Hinf Hloop. clear. num_cases.
Qed.
End AlphaBeta.

Lemma check_win_runs m :
  consistent m -> exists w, check_win m = (m, Ret w) /\ (w = 0 \/ w = 1).
Proof.
  intros Hm.
  pose proof (cons_side m Hm) as Hs. pose proof (cons_len m Hm) as Hl.
  assert (Hp : - turn m = 1 \/ - turn m = -1) by (destruct (cons_turn m Hm); lia).
  assert (Hlist : (if turn m =? -1 then crosses m else noughts m) = placed m (- turn m)).
  { unfold placed. destruct (cons_turn m Hm) as [-> | ->]; reflexivity. }
  destruct (check_win_loop_spec m (- turn m) (placed m (- turn m)) Hs Hl)
    as (w & Hrun & Hw01 & _).
  { intros c Hc. by apply (placed_spec m (- turn m) c Hm Hp). }
  exists w. unfold check_win, bind, get. by rewrite Hlist.
Qed.

Lemma within_window_exact alpha beta v : within_window alpha beta v v.
Proof. unfold within_window. tauto. Qed.

Lemma loop_window_within alpha beta best r :
  loop_window alpha beta best r -> within_window alpha beta best r.
Proof. intros H. revert H. num_cases. Qed.

Lemma search_fuel_spec fuel : forall depth alpha beta m,
  consistent m -> (length (legal_moves m) < fuel)%nat -> num_lt alpha beta ->
  exists v r,
    negamax_fuel fuel depth m = Ret (Fin v) /\
    search_fuel fuel depth alpha beta m = (m, Ret r) /\
    within_window alpha beta (Fin v) r.
Proof.
  induction fuel as [|fuel IH]; intros depth alpha beta m Hm Hfuel Hab; [lia|].
  simpl. destruct (depth =? 0) eqn:Hd.
  - exists 0, (Fin 0). split; [done|]. split; [done|]. apply within_window_exact.
  - destruct (check_win_runs m Hm) as (w & Hcw & Hw01).
    rewrite (bind_run _ _ _ _ _ Hcw). rewrite Hcw. simpl.
    destruct (negb (w =? 0)) eqn:Hw.
    + exists (w + depth), (Fin (w + depth)). split; [done|]. split; [done|].
      apply within_window_exact.
    + assert (Hfl : find_legal_moves m = (m, Ret (legal_moves m))) by reflexivity.
      rewrite (bind_run _ _ _ _ _ Hfl).
      remember (legal_moves m) as moves eqn:Hmoves.
      destruct moves as [|c rest].
      * exists 0, (Fin 0). split; [done|]. split; [done|]. apply within_window_exact.
      * destruct (search_loop_spec fuel (depth - 1) (IH (depth - 1)) m beta
                    (c :: rest) alpha Hm) as (best & r & Hbest & _ & Hfin & Hloop & Hwin).
        -- intros c' Hc'. by rewrite <- Hmoves.
        -- rewrite <- Hmoves. simpl in *. lia.
        -- done.
        -- destruct Hfin as [v ->]; [done|]. exists v, r.
           split; [exact Hbest|]. split; [exact Hloop|].
           by apply loop_window_within.
Qed.

Lemma search_exact depth m :
  consistent m ->
  exists v, search depth NegInf PosInf m = (m, Ret (Fin v)) /\
            negamax depth m = Ret (Fin v).
Proof.
  intros Hm. unfold search, negamax. fold (cells m).
  destruct (search_fuel_spec (S (length (cells m))) depth NegInf PosInf m Hm)
    as (v & r & Hn & Hs & Hwin).
  - pose proof (legal_moves_bound m). lia.
  - done.
  - exists v. destruct Hwin as (_ & Heq & _). rewrite Heq in Hs by done. done.
Qed.

(** C6.  From every reachable state and for every depth, [search] with the
    full window [(-infinity, +infinity)] raises nothing, leaves the state as
    it found it, and returns a finite value which is the value of the
    unpruned exhaustive negamax of the same depth over the same terminal
    values. *)
Theorem search_full_window_equals_negamax m depth :
  reachable m ->
  exists v, search depth NegInf PosInf m = (m, Ret (Fin v)) /\
            negamax depth m = Ret (Fin v).
Proof. intros Hr. apply search_exact. by apply reachable_consistent. Qed.

Lemma search_full_window_equals_negamax_witness :
  exists v, search 4 NegInf PosInf (new_game 2 None) = (new_game 2 None, Ret (Fin v)) /\
            negamax 4 (new_game 2 None) = Ret (Fin v).
Proof.
  apply (search_full_window_equals_negamax (new_game 2 None) 4).
  apply reach_new. lia.
Defined.

(** ** The root of the search *)

Lemma move_eval_legal depth m c :
  consistent m -> c ∈ legal_moves m ->
  exists v,
    search (depth - 1) NegInf PosInf (moved m c) = (moved m c, Ret (Fin v)) /\
    move_eval depth m c = Ret (Fin v).
Proof.
  intros Hm Hc.
  destruct (search_exact (depth - 1) (moved m c) (consistent_moved m c Hm Hc))
    as (v & Hs & _).
  exists v. split; [done|].
  unfold move_eval. rewrite (bind_run _ _ _ _ _ (make_move_legal m c Hc)).
  by rewrite Hs.
Qed.

Lemma search_root_loop_step depth c rest best_eval best_move m e :
  consistent m -> c ∈ legal_moves m ->
  search (depth - 1) NegInf PosInf (moved m c) = (moved m c, Ret e) ->
  search_root_loop depth (c :: rest) best_eval best_move m =
  (if num_gtb e best_eval then search_root_loop depth rest e (Some c)
   else search_root_loop depth rest best_eval best_move) m.
Proof.
  intros Hm Hc Hs. destruct (consistent_fresh m c Hm Hc) as [Hx Ho].
  simpl.
  rewrite (bind_run _ _ _ _ _ (make_move_legal m c Hc)), (bind_run _ _ _ _ _ Hs),
    (bind_run _ _ _ _ _ (unmake_move_moved m c Hc Hx Ho)).
  by destruct (num_gtb e best_eval).
Qed.

Lemma search_root_loop_spec depth m moves : forall best_eval best_move,
  consistent m -> (forall c, c ∈ moves -> c ∈ legal_moves m) ->
  StronglySorted Z.lt moves ->
  exists res,
    search_root_loop depth moves best_eval best_move m = (m, Ret res) /\
    ((res = best_move /\
      forall c, c ∈ moves ->
        exists v, move_eval depth m c = Ret (Fin v) /\ num_le (Fin v) best_eval) \/
     (exists mv e,
        res = Some mv /\ mv ∈ moves /\ move_eval depth m mv = Ret e /\
        num_lt best_eval e /\
        forall c, c ∈ moves ->
          exists e', move_eval depth m c = Ret e' /\ num_le e' e /\
                     (e' = e -> mv <= c))).
Proof.
  induction moves as [|c rest IH]; intros be bm Hm Hlegal Hsorted.
  - exists bm. split; [done|]. left. split; [done|]. intros c Hc. inversion Hc.
  - assert (Hc : c ∈ legal_moves m) by (apply Hlegal; left).
    assert (Hrest : forall c', c' ∈ rest -> c' ∈ legal_moves m)
      by (intros c' Hc'; apply Hlegal; by right).
    apply StronglySorted_inv in Hsorted as [Hsorted Hlow].
    rewrite Forall_forall in Hlow.
    destruct (move_eval_legal depth m c Hm Hc) as (v & Hs & Hev).
    rewrite (search_root_loop_step depth c rest be bm m (Fin v) Hm Hc Hs).
    destruct (num_gtb (Fin v) be) eqn:Hgt.
    + apply num_ltb_lt in Hgt.
      destruct (IH (Fin v) (Some c) Hm Hrest Hsorted) as (res & Hrun & Hres).
      exists res. split; [done|]. right.
      destruct Hres as [[-> Hall] | (mv & e & -> & Hmv & Hmve & Hlt & Hall)].
      * exists c, (Fin v). split; [done|]. split; [left|]. split; [done|].
        split; [done|]. intros c' Hc'. apply elem_of_cons in Hc' as [-> | Hc'].
        -- exists (Fin v). split; [done|]. split; [simpl; lia|]. lia.
        -- destruct (Hall c' Hc') as (v' & Hev' & Hle).
           exists (Fin v'). split; [done|]. split; [done|].
           intros _. specialize (Hlow c' Hc'). lia.
      * exists mv, e. split; [done|]. split; [by right|]. split; [done|].
        split; [revert Hgt Hlt; clear; num_cases|].
        intros c' Hc'. apply elem_of_cons in Hc' as [-> | Hc']; [|by apply Hall].
        exists (Fin v). split; [done|].
        split; revert Hlt; clear; num_cases.
    + apply num_ltb_ge in Hgt.
      destruct (IH be bm Hm Hrest Hsorted) as (res & Hrun & Hres).
      exists res. split; [done|].
      destruct Hres as [[-> Hall] | (mv & e & -> & Hmv & Hmve & Hlt & Hall)].
      * left. split; [done|]. intros c' Hc'.
        apply elem_of_cons in Hc' as [-> | Hc']; [|by apply Hall].
        by exists v.
      * right. exists mv, e. split; [done|]. split; [by right|]. split; [done|].
        split; [done|].
        intros c' Hc'. apply elem_of_cons in Hc' as [-> | Hc']; [|by apply Hall].
        exists (Fin v). split; [done|].
        split; revert Hgt Hlt; clear; num_cases.
Qed.

Lemma search_root_spec m depth :
  consistent m -> legal_moves m <> [] ->
  exists mv e,
    search_root depth m = (m, Ret (Some mv)) /\
    mv ∈ legal_moves m /\
    move_eval depth m mv = Ret e /\
    forall c, c ∈ legal_moves m ->
      exists e', move_eval depth m c = Ret e' /\ num_le e' e /\
                 (e' = e -> mv <= c).
Proof.
  intros Hm Hne. unfold search_root.
  assert (Hfl : find_legal_moves m = (m, Ret (legal_moves m))) by reflexivity.
  rewrite (bind_run _ _ _ _ _ Hfl).
  destruct (search_root_loop_spec depth m (legal_moves m) NegInf None Hm)
    as (res & Hrun & Hres); [done|apply legal_from_sorted|].
  destruct Hres as [[-> Hall] | (mv & e & -> & Hmv & Hmve & Hlt & Hall)].
  - exfalso. destruct (legal_moves m) as [|c rest]; [done|].
    destruct (Hall c ltac:(left)) as (v & _ & Hle). done.
  - by exists mv, e.
Qed.

(** C7.  From every reachable state with at least one legal move and for
    every depth, [search_root] raises nothing, leaves the state as it found
    it and returns a move of [find_legal_moves()]: the one with the lowest
    index among those whose evaluation ([search(depth - 1)] after the move)
    is maximal. *)
Theorem search_root_first_best_legal_move m depth :
  reachable m -> legal_moves m <> [] ->
  exists mv e,
    search_root depth m = (m, Ret (Some mv)) /\
    mv ∈ legal_moves m /\
    move_eval depth m mv = Ret e /\
    forall c, c ∈ legal_moves m ->
      exists e', move_eval depth m c = Ret e' /\ num_le e' e /\
                 (e' = e -> mv <= c).
Proof.
  intros Hr Hne. apply search_root_spec; [|done]. by apply reachable_consistent.
Qed.

Lemma search_root_first_best_legal_move_witness :
  exists mv e,
    search_root 4 (new_game 2 None) = (new_game 2 None, Ret (Some mv)) /\
    mv ∈ legal_moves (new_game 2 None) /\
    move_eval 4 (new_game 2 None) mv = Ret e /\
    forall c, c ∈ legal_moves (new_game 2 None) ->
      exists e', move_eval 4 (new_game 2 None) c = Ret e' /\ num_le e' e /\
                 (e' = e -> mv <= c).
Proof.
  apply (search_root_first_best_legal_move (new_game 2 None) 4).
  - apply reach_new. lia.
  - discriminate.
Defined.

(** ** Construction and reset *)

(** C9 (as the code has it).  [__init__] validates nothing and never fails:
    for every board and every [pieces_to_win] argument it returns an instance
    with empty history lists and turn 1; a missing or zero [pieces_to_win]
    becomes the board's size and any other value is stored as given. *)
Theorem init_never_fails b pieces :
  init b pieces =
  Ret (mkManager b [] [] 1
         match pieces with
         | None => Board.size b
         | Some k => if k =? 0 then Board.size b else k
         end).
Proof. reflexivity. Qed.

(** C9 fails as stated: a win length of 5 on a board of side 3, and a board
    of side 0, are both accepted. *)
Lemma init_accepts_out_of_range :
  ~ (1 <= 5 <= Board.size (Board.create 3)) /\
  init (Board.create 3) (Some 5) = Ret (mkManager (Board.create 3) [] [] 1 5) /\
  Board.size (Board.create 0) <= 0 /\
  init (Board.create 0) (Some 1) = Ret (mkManager (Board.create 0) [] [] 1 1).
Proof.
  split; [simpl; lia|]. split; [reflexivity|]. split; [simpl; lia|reflexivity].
Qed.

(** C2 (what the code does).  [reset_board] sets every cell to 0 and leaves
    the two history lists and the turn as they are; after one move and a
    reset the cross list still holds cell 0, the turn is still -1, and
    [check_win] then reports a win on the empty board. *)
Theorem reset_board_keeps_history :
  (forall m,
     let m' := (reset_board m).1 in
     cells m' = replicate (length (cells m)) 0 /\
     crosses m' = crosses m /\ noughts m' = noughts m /\ turn m' = turn m) /\
  (make_move 0 ;; reset_board) (new_game 3 None) =
    (mkManager (Board.mk 3 [0; 0; 0; 0; 0; 0; 0; 0; 0]) [0] [] (-1) 3, Ret tt) /\
  ((make_move 0 ;; reset_board ;; check_win) (new_game 3 None)).2 = Ret 1.
Proof.
  split; [|split; reflexivity].
  intros m. simpl. split; [|done]. unfold cells. simpl.
  induction (Board.board (board m)) as [|x l IH]; simpl; [done|by f_equal].
Qed.

(** ** Self-play *)

(** C8 (what the code does).  On an empty 3x3 board with [pieces_to_win = 3],
    when both sides move by [search_root(9)], the moves are 0, 2, 3, 6, 4, 8,
    5, all in [0, 8], and [check_win] returns 1 after the seventh: crosses
    win on the row 3-4-5 and the game is not a draw. *)
Theorem self_play_is_not_a_draw :
  (self_play 9 9 (new_game 3 (Some 3))).2 =
  Ret [(0, 0); (2, 0); (3, 0); (6, 0); (4, 0); (8, 0); (5, 1)].
Proof. vm_compute. reflexivity. Qed.

(** ** Two instances *)

(** Instances whose boards are different objects do not see each other's
    moves. *)
Lemma run_frame {A} (c : M A) a b h a' h' r :
  Heap.board_at a <> Heap.board_at b ->
  Heap.run c a h = Some (a', h', r) ->
  Heap.view h' b = Heap.view h b.
Proof.
  intros Hne Hrun. unfold Heap.run in Hrun.
  destruct (Heap.view h a) as [m|]; [|done].
  destruct (c m) as [m' r']. injection Hrun as <- <- <-.
  unfold Heap.view. by rewrite lookup_insert_ne.
Qed.

Lemma new_board_fresh n h :
  h !! (Heap.new_board n h).1 = None /\
  (Heap.new_board n h).2 !! (Heap.new_board n h).1 = Some (Board.create n).
Proof.
  unfold Heap.new_board. simpl. split.
  - apply not_elem_of_dom, is_fresh.
  - apply lookup_insert_eq.
Qed.

(** Two managers built on two [Board(n)] objects of their own do not see
    each other's moves. *)
Lemma own_boards_do_not_interfere {A} (c : M A) n1 n2 p1 p2 h a b a' h' r :
  let '(r1, h1) := Heap.new_board n1 h in
  let '(r2, h2) := Heap.new_board n2 h1 in
  Heap.construct (Some r1) p1 h2 = Some a ->
  Heap.construct (Some r2) p2 h2 = Some b ->
  Heap.run c a h2 = Some (a', h', r) ->
  Heap.view h' b = Heap.view h2 b.
Proof.
  pose proof (new_board_fresh n2 (Heap.new_board n1 h).2) as [Hfresh _].
  pose proof (new_board_fresh n1 h) as [_ Hthere].
  destruct (Heap.new_board n1 h) as [r1 h1] eqn:E1.
  destruct (Heap.new_board n2 h1) as [r2 h2] eqn:E2.
  simpl in *. intros Ha Hb Hrun.
  apply (run_frame c a b h2 a' h' r); [|done].
  unfold Heap.new_board in E2. injection E2 as <- <-.
  unfold Heap.construct, init in Ha, Hb.
  repeat match goal with
         | H : match ?x with _ => _ end = Some _ |- _ => destruct x; [|done]
         end.
  injection Ha as <-. injection Hb as <-. simpl.
  intros ->. congruence.
Qed.

(** C10 (what the code does).  Two instances constructed with the default
    board argument point to the same board object: a move made through the
    first shows on the board of the second, whose cell 0 becomes 1 and whose
    legal moves lose 0, while its history lists stay empty. *)
Theorem default_board_is_shared :
  exists a b a' h',
    Heap.construct None None Heap.initial = Some a /\
    Heap.construct None None Heap.initial = Some b /\
    (cells <$> Heap.view Heap.initial b) = Some [0; 0; 0; 0; 0; 0; 0; 0; 0] /\
    Heap.run (make_move 0) a Heap.initial = Some (a', h', Ret tt) /\
    (cells <$> Heap.view h' b) = Some [1; 0; 0; 0; 0; 0; 0; 0; 0] /\
    (legal_moves <$> Heap.view h' b) = Some [1; 2; 3; 4; 5; 6; 7; 8] /\
    (crosses <$> Heap.view h' b) = Some [] /\
    (noughts <$> Heap.view h' b) = Some [].
Proof.
  do 4 eexists. repeat split; try reflexivity.
Qed.

(** ** Moves the caller should not have made *)

Lemma norm_index_out {A} (l : list A) i :
  i < - Z.of_nat (length l) \/ Z.of_nat (length l) <= i -> Py.norm_index l i = None.
Proof.
  intros H. unfold Py.norm_index.
  destruct ((0 <=? i) && (i <? Z.of_nat (length l))) eqn:E1.
  { apply andb_true_iff in E1 as [?%Z.leb_le ?%Z.ltb_lt]. lia. }
  destruct ((- Z.of_nat (length l) <=? i) && (i <? 0)) eqn:E2; [|done].
  apply andb_true_iff in E2 as [?%Z.leb_le ?%Z.ltb_lt]. lia.
Qed.

Lemma remove_absent l x : x ∉ l -> Py.remove l x = None.
Proof.
  induction l as [|y l IH]; simpl; intros Hx; [done|].
  apply not_elem_of_cons in Hx as [Hne Hx].
  destruct (y =? x) eqn:E; [lia|]. by rewrite IH.
Qed.

Lemma remove_app_last l x :
  exists l', Py.remove (l ++ [x]) x = Some l' /\ length l' = length l.
Proof.
  induction l as [|y l IH]; simpl.
  - rewrite Z.eqb_refl. by exists [].
  - destruct (y =? x) eqn:E.
    + exists (l ++ [x]). split; [done|]. rewrite length_app. simpl. lia.
    + destruct IH as (l' & -> & Hlen). exists (y :: l'). split; [done|].
      simpl. by rewrite Hlen.
Qed.

(** X1.  [make_move] with a cell outside [-n*n, n*n) raises IndexError, but
    only after the cell was appended to the mover's history list: the board
    and the turn are as before and the list keeps the bad cell. *)
Theorem make_move_out_of_range_keeps_append m cell :
  cell < - Z.of_nat (length (cells m)) \/ Z.of_nat (length (cells m)) <= cell ->
  make_move cell m =
  (mkManager (board m)
             (if turn m =? 1 then crosses m ++ [cell] else crosses m)
             (if turn m =? 1 then noughts m else noughts m ++ [cell])
             (turn m) (pieces_to_win m),
   Raise IndexError).
Proof.
  intros Hc. unfold cells in Hc.
  cbv [make_move bind store_cell get modify raise Py.setitem].
  destruct (turn m =? 1) eqn:Et; simpl; rewrite norm_index_out by done;
    reflexivity.
Qed.

Lemma make_move_out_of_range_keeps_append_witness :
  make_move 9 (new_game 3 None) =
  (mkManager (Board.create 3) [9] [] 1 3, Raise IndexError).
Proof.
  apply (make_move_out_of_range_keeps_append (new_game 3 None) 9).
  right. simpl. lia.
Defined.

(** X2.  [make_move] does not look at the cell it writes: on any in-range
    cell, occupied or not, [make_move] then [unmake_move] raise nothing,
    give the turn back, keep the lengths of both history lists, and leave
    the cell at 0, so the mark of an occupied cell is lost. *)
Theorem make_unmake_clears_cell m cell :
  0 <= cell < Z.of_nat (length (cells m)) ->
  exists m',
    (make_move cell ;; unmake_move cell) m = (m', Ret tt) /\
    cells m' = <[Z.to_nat cell := 0]> (cells m) /\
    turn m' = turn m /\
    length (crosses m') = length (crosses m) /\
    length (noughts m') = length (noughts m).
Proof.
  intros Hc. rewrite (bind_run _ _ _ _ _ (make_move_in_range m cell Hc)).
  unfold moved. cbv [unmake_move bind store_cell get modify raise]. simpl.
  destruct m as [[s b] xs os t k]. unfold cells, side in *. simpl in *.
  destruct (t =? 1) eqn:Et.
  - apply Z.eqb_eq in Et. subst t. simpl.
    destruct (remove_app_last xs cell) as (l' & -> & Hlen). simpl.
    rewrite setitem_nonneg by (rewrite length_insert; done). simpl.
    eexists. split; [reflexivity|]. unfold cells. simpl.
    rewrite list_insert_insert_eq. done.
  - destruct (t * -1 =? -1) eqn:Et'; [lia|].
    destruct (remove_app_last os cell) as (l' & -> & Hlen). simpl.
    rewrite setitem_nonneg by (rewrite length_insert; done). simpl.
    eexists. split; [reflexivity|]. unfold cells. simpl.
    rewrite list_insert_insert_eq. repeat split; [lia|done].
Qed.

Lemma make_unmake_clears_cell_witness :
  exists m',
    (make_move 0 ;; unmake_move 0) (moved (new_game 3 None) 0) = (m', Ret tt) /\
    cells m' = <[Z.to_nat 0 := 0]> (cells (moved (new_game 3 None) 0)) /\
    turn m' = turn (moved (new_game 3 None) 0) /\
    length (crosses m') = length (crosses (moved (new_game 3 None) 0)) /\
    length (noughts m') = length (noughts (moved (new_game 3 None) 0)).
Proof.
  apply (make_unmake_clears_cell (moved (new_game 3 None) 0) 0).
  simpl. lia.
Defined.

(** X3.  [unmake_move] of a cell that is not in the history list of the
    player who moved last raises ValueError and changes nothing. *)
Theorem unmake_move_absent_raises m cell :
  cell ∉ (if turn m =? -1 then crosses m else noughts m) ->
  unmake_move cell m = (m, Raise ValueError).
Proof.
  intros Hc. cbv [unmake_move bind get modify raise].
  destruct (turn m =? -1); by rewrite remove_absent.
Qed.

Lemma unmake_move_absent_raises_witness :
  unmake_move 4 (moved (new_game 3 None) 0) =
  (moved (new_game 3 None) 0, Raise ValueError).
Proof.
  apply (unmake_move_absent_raises (moved (new_game 3 None) 0) 4).
  simpl. rewrite list_elem_of_singleton. lia.
Defined.

(** ** What reachable states look like *)

Lemma occupied_insert l k v :
  l !! k = Some 0 -> v <> 0 -> occupied (<[k:=v]> l) = S (occupied l).
Proof.
  intros Hk Hv.
  pose proof (legal_from_insert 0 l k v Hk Hv) as H1.
  pose proof (legal_from_length 0 l) as H2.
  pose proof (legal_from_length 0 (<[k:=v]> l)) as H3.
  rewrite length_insert in H3. lia.
Qed.

Lemma occupied_replicate n : occupied (replicate n 0) = 0%nat.
Proof.
  unfold occupied. induction n as [|n IH]; simpl; [done|].
  by rewrite filter_cons_False by lia.
Qed.

(** X4.  In every reachable state neither history list repeats a cell, no
    cell is in both, every board cell is -1, 0 or 1, the two lists together
    are as long as the number of occupied cells, and the turn tells which
    list is longer: on crosses' turn the lists have equal length, on
    noughts' turn crosses have one cell more. *)
Theorem reachable_invariants m :
  reachable m ->
  NoDup (crosses m) /\ NoDup (noughts m) /\
  (forall c, c ∈ crosses m -> c ∉ noughts m) /\
  Forall (fun v => v = -1 \/ v = 0 \/ v = 1) (cells m) /\
  (length (crosses m) + length (noughts m))%nat = occupied (cells m) /\
  ((turn m = 1 /\ length (crosses m) = length (noughts m)) \/
   (turn m = -1 /\ length (crosses m) = S (length (noughts m)))).
Proof.
  induction 1 as [n pieces Hn | m c m' Hr IH Hc Hmv].
  - unfold new_game, init, Board.create, cells. simpl.
    split; [constructor|]. split; [constructor|].
    split; [intros c Hc; inversion Hc|].
    split; [apply Forall_replicate; lia|].
    split; [by rewrite occupied_replicate|]. by left.
  - pose proof (reachable_consistent m Hr) as Hm.
    destruct (consistent_fresh m c Hm Hc) as [Hx Ho].
    rewrite make_move_legal in Hmv by done. injection Hmv as <-.
    destruct IH as (Hnx & Hno & Hdis & Hval & Hocc & Hturn).
    apply elem_of_legal_moves in Hc as [H0 Hz].
    unfold moved, cells in *. simpl.
    destruct Hturn as [[Ht Hlen] | [Ht Hlen]]; rewrite Ht; simpl.
    + split; [apply NoDup_app; split; [done|split; [|apply NoDup_singleton]];
              intros x Hx1 Hx2%list_elem_of_singleton; by subst|].
      split; [done|].
      split; [intros x [Hx1 | ->%list_elem_of_singleton]%elem_of_app;
              [by apply Hdis | done]|].
      split; [apply Forall_insert; [done|lia]|].
      split; [|right; split; [done|rewrite length_app; simpl; lia]].
      rewrite occupied_insert by (done || lia). rewrite length_app. simpl. lia.
    + split; [done|].
      split; [apply NoDup_app; split; [done|split; [|apply NoDup_singleton]];
              intros x Hx1 Hx2%list_elem_of_singleton; by subst|].
      split; [intros x Hx1 [Hx2 | ->%list_elem_of_singleton]%elem_of_app;
              [by apply (Hdis x) | done]|].
      split; [apply Forall_insert; [done|lia]|].
      split; [|left; split; [done|rewrite length_app; simpl; lia]].
      rewrite occupied_insert by (done || lia). rewrite length_app. simpl. lia.
Qed.

Lemma reachable_invariants_witness :
  let m := moved (new_game 3 None) 4 in
  NoDup (crosses m) /\ NoDup (noughts m) /\
  (forall c, c ∈ crosses m -> c ∉ noughts m) /\
  Forall (fun v => v = -1 \/ v = 0 \/ v = 1) (cells m) /\
  (length (crosses m) + length (noughts m))%nat = occupied (cells m) /\
  ((turn m = 1 /\ length (crosses m) = length (noughts m)) \/
   (turn m = -1 /\ length (crosses m) = S (length (noughts m)))).
Proof.
  apply (reachable_invariants (moved (new_game 3 None) 4)).
  apply (reach_move (new_game 3 None) 4).
  - apply reach_new. lia.
  - apply elem_of_legal_moves. split; [lia | reflexivity].
  - reflexivity.
Defined.

(** ** Legal moves after a move *)

Lemma filter_above (x : Z) l :
  Forall (fun y => x < y) l -> filter (fun y => y <> x) l = l.
Proof.
  induction 1 as [|y l Hy Hl IH]; [done|].
  rewrite filter_cons_True by lia. by rewrite IH.
Qed.

Lemma legal_from_above i l : Forall (fun y => i <= y) (legal_from i l).
Proof. apply Forall_forall. intros y. apply legal_from_lower. Qed.

Lemma legal_from_insert_filter l : forall i (k : nat) v,
  l !! k = Some 0 -> v <> 0 ->
  legal_from i (<[k:=v]> l) =
  filter (fun y => y <> i + Z.of_nat k) (legal_from i l).
Proof.
  induction l as [|x l IH]; intros i k v Hk Hv; [done|].
  destruct k as [|k]; simpl in *.
  - injection Hk as ->. simpl. destruct (v =? 0) eqn:E; [lia|].
    rewrite Z.add_0_r, filter_cons_False by lia.
    symmetry. apply filter_above.
    eapply Forall_impl; [apply legal_from_above|]. simpl. intros; lia.
  - rewrite (IH (i + 1) k v Hk Hv).
    replace (i + 1 + Z.of_nat k) with (i + Z.pos (Pos.of_succ_nat k)) by lia.
    destruct (x =? 0); [|done].
    by rewrite filter_cons_True by lia.
Qed.

(** X5.  After a move into a legal cell, [find_legal_moves] returns the
    earlier list of legal moves without that cell, and nothing else
    changes in the list. *)
Theorem legal_moves_after_move m cell :
  consistent m -> cell ∈ legal_moves m ->
  exists m',
    (make_move cell ;; find_legal_moves) m =
    (m', Ret (filter (fun y => y <> cell) (legal_moves m))).
Proof.
  intros Hm Hc. exists (moved m cell).
  rewrite (bind_run _ _ _ _ _ (make_move_legal m cell Hc)).
  apply elem_of_legal_moves in Hc as [H0 Hz].
  cbv [find_legal_moves bind get ret]. unfold moved, legal_moves, cells in *.
  simpl. rewrite legal_from_insert_filter; [|done|destruct (cons_turn m Hm); lia].
  replace (0 + Z.of_nat (Z.to_nat cell)) with cell by lia. reflexivity.
Qed.

Lemma legal_moves_after_move_witness :
  exists m',
    (make_move 4 ;; find_legal_moves) (new_game 3 None) =
    (m', Ret (filter (fun y => y <> 4) (legal_moves (new_game 3 None)))).
Proof.
  apply (legal_moves_after_move (new_game 3 None) 4).
  - apply consistent_new. lia.
  - apply elem_of_legal_moves. split; [lia | reflexivity].
Defined.

(** ** Win lengths the constructor lets through *)

(** X6.  With [pieces_to_win <= 1] (zero is replaced by the size, but one
    and negative values are stored as given) the inner loop of
    [check_win_at_cell] has no step to make, so [check_win] returns 1 right
    after any move into a legal cell. *)
Theorem check_win_after_any_move_when_short m cell :
  consistent m -> pieces_to_win m <= 1 -> cell ∈ legal_moves m ->
  exists m', (make_move cell ;; check_win) m = (m', Ret 1).
Proof.
  intros Hm Hk Hc. exists (moved m cell).
  rewrite (bind_run _ _ _ _ _ (make_move_legal m cell Hc)).
  pose proof (consistent_moved m cell Hm Hc) as Hm1.
  set (m1 := moved m cell) in *.
  pose proof (cons_side m1 Hm1) as Hs. pose proof (cons_len m1 Hm1) as Hl.
  assert (Hp : - turn m1 = 1 \/ - turn m1 = -1) by (destruct (cons_turn m1 Hm1); lia).
  assert (Hlist : (if turn m1 =? -1 then crosses m1 else noughts m1)
                  = placed m1 (- turn m1)).
  { unfold placed. destruct (cons_turn m1 Hm1) as [-> | ->]; reflexivity. }
  destruct (check_win_loop_spec m1 (- turn m1) (placed m1 (- turn m1)) Hs Hl)
    as (w & Hrun & _ & Hw).
  { intros c Hin. by apply (placed_spec m1 (- turn m1) c Hm1 Hp). }
  unfold check_win, bind, get. rewrite Hlist, Hrun. do 2 f_equal.
  apply Hw. exists cell, (1, 0).
  apply elem_of_legal_moves in Hc as Hc'. destruct Hc' as [H0 Hz].
  pose proof (legal_in_range m cell Hc) as Hr.
  split; [|split; [unfold directions; do 4 apply list_elem_of_further; apply list_elem_of_here|]].
  - apply (placed_spec m1 (- turn m1) cell Hm1 Hp). split; [done|].
    unfold m1, moved, cells. simpl. fold (cells m).
    rewrite list_lookup_insert_eq by lia. f_equal. lia.
  - intros j Hj. unfold m1, moved in Hj. simpl in Hj. lia.
Qed.

Lemma check_win_after_any_move_when_short_witness :
  exists m', (make_move 4 ;; check_win) (new_game 3 (Some 1)) = (m', Ret 1).
Proof.
  apply (check_win_after_any_move_when_short (new_game 3 (Some 1)) 4).
  - apply consistent_new. lia.
  - simpl. lia.
  - apply elem_of_legal_moves. split; [lia | reflexivity].
Defined.

Lemma direction_nonzero d :
  d ∈ directions ->
  (d.1 = -1 \/ d.1 = 0 \/ d.1 = 1) /\ (d.2 = -1 \/ d.2 = 0 \/ d.2 = 1) /\
  (d.1 <> 0 \/ d.2 <> 0).
Proof.
  unfold directions. intros Hd.
  repeat (apply elem_of_cons in Hd as [-> | Hd]); simpl; try lia.
  inversion Hd.
Qed.

(** X7.  With [pieces_to_win] larger than the board's size (which the
    constructor accepts) no line fits on the grid: in a state whose history
    lists agree with the board, [check_win] always returns 0. *)
Theorem check_win_never_when_too_long m :
  consistent m -> side m < pieces_to_win m -> check_win m = (m, Ret 0).
Proof.
  intros Hm Hk. pose proof (cons_side m Hm) as Hs.
  destruct (check_win_spec m Hm ltac:(lia)) as (w & Hrun & Hw01 & Hw).
  rewrite Hrun. do 2 f_equal.
  destruct Hw01 as [-> | ->]; [done|]. exfalso.
  destruct Hw as [Hw _]. destruct (Hw ltac:(lia)) as (x & y & d & j & Hd & Hline & _).
  destruct (Hline 0 ltac:(lia)) as [[Hx0 Hy0] _].
  destruct (Hline (side m) ltac:(lia)) as [[Hx1 Hy1] _].
  destruct (direction_nonzero d Hd) as (Hd1 & Hd2 & Hnz).
  destruct Hd1 as [Hd1 | [Hd1 | Hd1]], Hd2 as [Hd2 | [Hd2 | Hd2]];
    rewrite Hd1, Hd2 in *; lia.
Qed.

Lemma check_win_never_when_too_long_witness :
  check_win (moved (new_game 3 (Some 5)) 4) = (moved (new_game 3 (Some 5)) 4, Ret 0).
Proof.
  apply (check_win_never_when_too_long (moved (new_game 3 (Some 5)) 4)).
  - apply consistent_moved; [apply consistent_new; lia|].
    apply elem_of_legal_moves. split; [lia | reflexivity].
  - reflexivity.
Defined.

(** ** The search with any window *)

(** X8.  For any window [alpha < beta] and any depth, [search] from a state
    whose history lists agree with the board raises nothing, leaves the
    state as it found it, and its result is exact when the unpruned value
    lies strictly inside the window, at most [alpha] when that value is at
    most [alpha], and at least [beta] when it is at least [beta]. *)
Theorem search_window_sound m depth alpha beta :
  consistent m -> num_lt alpha beta ->
  exists v r,
    negamax depth m = Ret (Fin v) /\
    search depth alpha beta m = (m, Ret r) /\
    (num_le (Fin v) alpha -> num_le r alpha) /\
    (num_lt alpha (Fin v) -> num_lt (Fin v) beta -> r = Fin v) /\
    (num_le beta (Fin v) -> num_le beta r).
Proof.
  intros Hm Hab. unfold search, negamax. fold (cells m).
  destruct (search_fuel_spec (S (length (cells m))) depth alpha beta m Hm)
    as (v & r & Hn & Hs & Hwin).
  - pose proof (legal_moves_bound m). lia.
  - done.
  - by exists v, r.
Qed.

Lemma search_window_sound_witness :
  exists v r,
    negamax 3 (new_game 2 None) = Ret (Fin v) /\
    search 3 (Fin (-1)) (Fin 1) (new_game 2 None) = (new_game 2 None, Ret r) /\
    (num_le (Fin v) (Fin (-1)) -> num_le r (Fin (-1))) /\
    (num_lt (Fin (-1)) (Fin v) -> num_lt (Fin v) (Fin 1) -> r = Fin v) /\
    (num_le (Fin 1) (Fin v) -> num_le (Fin 1) r).
Proof.
  apply (search_window_sound (new_game 2 None) 3 (Fin (-1)) (Fin 1)).
  - apply consistent_new. lia.
  - simpl. lia.
Defined.

(** ** How large a search value can be *)

Lemma best_reply_bounds value m lo hi moves :
  (forall c r, c ∈ moves -> value (make_move c m).1 = Ret r ->
     exists v, r = Fin v /\ lo <= v <= hi) ->
  forall best, best_reply value m moves = Ret best ->
  (moves = [] /\ best = NegInf) \/
  (exists b, best = Fin b /\ - hi <= b <= - lo).
Proof.
  induction moves as [|c rest IH]; intros Hch best Hbest; simpl in Hbest.
  - left. split; [done|congruence].
  - right. destruct (value (make_move c m).1) as [r| |] eqn:Hr; try done.
    destruct (Hch c r ltac:(left) Hr) as (v & -> & Hv).
    destruct (best_reply value m rest) as [best'| |] eqn:Hb; try done.
    injection Hbest as <-.
    destruct (IH ltac:(intros c' r' Hc'; apply Hch; by right) best' eq_refl)
      as [[_ ->] | (b & -> & Hb')].
    + exists (- v). split; [done|lia].
    + unfold num_max. simpl. destruct (Z.leb_spec (- v) b).
      * exists b. split; [done|lia].
      * exists (- v). split; [done|lia].
Qed.

Lemma negamax_fuel_bounds fuel : forall depth m r,
  consistent m -> 0 <= depth -> negamax_fuel fuel depth m = Ret r ->
  exists v, r = Fin v /\ - depth <= v <= depth + 1 /\
            ((check_win m).2 = Ret 0 -> v <= Z.max 0 (depth - 1)).
Proof.
  induction fuel as [|fuel IH]; intros depth m r Hm Hd Hr; simpl in Hr; [done|].
  destruct (depth =? 0) eqn:Hd0.
  { injection Hr as <-. exists 0. split; [done|]. lia. }
  destruct (check_win_runs m Hm) as (w & Hcw & Hw01).
  rewrite Hcw in *. simpl in Hr.
  destruct Hw01 as [-> | ->]; simpl in Hr.
  - destruct (legal_moves m) as [|c rest] eqn:Hmoves.
    { injection Hr as <-. exists 0. split; [done|]. lia. }
    change (best_reply (negamax_fuel fuel (depth - 1)) m (c :: rest) = Ret r) in Hr.
    apply (best_reply_bounds _ m (- (depth - 1)) depth) in Hr.
    + destruct Hr as [[? _] | (b & -> & Hb)]; [done|].
      exists b. split; [done|]. lia.
    + intros c' r' Hc' Hr'. rewrite <- Hmoves in Hc'.
      rewrite (make_move_legal m c' Hc') in Hr'. simpl in Hr'.
      destruct (IH (depth - 1) (moved m c') r'
                  (consistent_moved m c' Hm Hc') ltac:(lia) Hr')
        as (v & -> & Hv & _).
      exists v. split; [done|]. lia.
  - injection Hr as <-. exists (1 + depth). split; [done|].
    split; [lia|]. simpl. intros [=].
Qed.

(** X9.  For a depth [d >= 0] the value [search] returns with the full
    window lies between [-d] and [d + 1]. *)
Theorem search_value_bounds m depth :
  consistent m -> 0 <= depth ->
  exists v, search depth NegInf PosInf m = (m, Ret (Fin v)) /\
            - depth <= v <= depth + 1.
Proof.
  intros Hm Hd. destruct (search_exact depth m Hm) as (v & Hs & Hn).
  exists v. split; [done|].
  destruct (negamax_fuel_bounds _ depth m (Fin v) Hm Hd Hn) as (v' & [= <-] & Hv & _).
  done.
Qed.

Lemma search_value_bounds_witness :
  exists v, search 3 NegInf PosInf (new_game 2 None) = (new_game 2 None, Ret (Fin v)) /\
            - 3 <= v <= 3 + 1.
Proof.
  apply (search_value_bounds (new_game 2 None) 3).
  - apply consistent_new. lia.
  - lia.
Defined.

(** ** What the root chooses *)

Lemma move_eval_depth_one m c :
  c ∈ legal_moves m -> move_eval 1 m c = Ret (Fin 0).
Proof.
  intros Hc. unfold move_eval.
  rewrite (bind_run _ _ _ _ _ (make_move_legal m c Hc)). reflexivity.
Qed.

(** X10.  [search_root(1)] evaluates every move by [search(0)], which
    returns 0 before looking at the board, so it returns the first legal
    move (the lowest empty index) whatever the position, even when another
    move would win at once. *)
Theorem search_root_depth_one_first_move m c rest :
  consistent m -> legal_moves m = c :: rest ->
  search_root 1 m = (m, Ret (Some c)).
Proof.
  intros Hm Hmoves.
  destruct (search_root_spec m 1 Hm ltac:(by rewrite Hmoves))
    as (mv & e & Hrun & Hmv & Hev & Hall).
  rewrite Hrun. do 3 f_equal.
  rewrite (move_eval_depth_one m mv Hmv) in Hev. injection Hev as <-.
  destruct (Hall c ltac:(rewrite Hmoves; left)) as (e' & He' & _ & Htie).
  rewrite move_eval_depth_one in He' by (rewrite Hmoves; left).
  injection He' as <-. specialize (Htie eq_refl).
  pose proof (legal_from_sorted 0 (cells m)) as Hsorted.
  fold (legal_moves m) in Hsorted. rewrite Hmoves in Hsorted, Hmv.
  apply StronglySorted_inv in Hsorted as [_ Hlow]. rewrite Forall_forall in Hlow.
  apply elem_of_cons in Hmv as [-> | Hmv]; [done|].
  specialize (Hlow mv Hmv). lia.
Qed.

Lemma search_root_depth_one_first_move_witness :
  search_root 1 (moved (new_game 3 None) 0) =
  (moved (new_game 3 None) 0, Ret (Some 1)).
Proof.
  apply (search_root_depth_one_first_move (moved (new_game 3 None) 0) 1
           [2; 3; 4; 5; 6; 7; 8]).
  - apply consistent_moved; [apply consistent_new; lia|].
    apply elem_of_legal_moves. split; [lia | reflexivity].
  - reflexivity.
Defined.

Lemma check_win_after_move m c :
  consistent m -> c ∈ legal_moves m ->
  exists w, check_win (moved m c) = (moved m c, Ret w) /\ (w = 0 \/ w = 1) /\
            (wins_at_once m c <-> w = 1).
Proof.
  intros Hm Hc.
  destruct (check_win_runs (moved m c) (consistent_moved m c Hm Hc))
    as (w & Hcw & Hw01).
  exists w. split; [done|]. split; [done|]. unfold wins_at_once.
  rewrite (bind_run _ _ _ _ _ (make_move_legal m c Hc)), Hcw. simpl.
  split; [congruence|by intros ->].
Qed.

Lemma move_eval_win m depth c :
  consistent m -> c ∈ legal_moves m -> 2 <= depth -> wins_at_once m c ->
  move_eval depth m c = Ret (Fin depth).
Proof.
  intros Hm Hc Hd Hwin.
  destruct (check_win_after_move m c Hm Hc) as (w & Hcw & _ & Hw).
  apply Hw in Hwin. subst w.
  unfold move_eval. rewrite (bind_run _ _ _ _ _ (make_move_legal m c Hc)).
  unfold search. simpl.
  destruct (depth - 1 =? 0) eqn:E; [lia|].
  rewrite (bind_run _ _ _ _ _ Hcw). simpl. do 2 f_equal. lia.
Qed.

Lemma move_eval_no_win m depth c :
  consistent m -> c ∈ legal_moves m -> 2 <= depth -> ~ wins_at_once m c ->
  exists v, move_eval depth m c = Ret (Fin v) /\ v < depth.
Proof.
  intros Hm Hc Hd Hno.
  destruct (check_win_after_move m c Hm Hc) as (w & Hcw & Hw01 & Hw).
  assert (w = 0) as -> by (destruct Hw01 as [-> | ->]; [done|by destruct Hno; apply Hw]).
  pose proof (consistent_moved m c Hm Hc) as Hm1.
  destruct (search_exact (depth - 1) (moved m c) Hm1) as (v & Hs & Hn).
  exists v. split.
  - unfold move_eval. rewrite (bind_run _ _ _ _ _ (make_move_legal m c Hc)).
    by rewrite Hs.
  - destruct (negamax_fuel_bounds _ (depth - 1) (moved m c) (Fin v) Hm1
                ltac:(lia) Hn) as (v' & [= <-] & _ & Hv).
    rewrite Hcw in Hv. specialize (Hv eq_refl). lia.
Qed.

(** X11.  With [depth >= 2], when some legal move wins at once,
    [search_root] returns a move that wins at once, namely the one with the
    lowest index. *)
Theorem search_root_takes_immediate_win m depth c :
  consistent m -> 2 <= depth -> c ∈ legal_moves m -> wins_at_once m c ->
  exists mv,
    search_root depth m = (m, Ret (Some mv)) /\
    mv ∈ legal_moves m /\ wins_at_once m mv /\
    forall c', c' ∈ legal_moves m -> wins_at_once m c' -> mv <= c'.
Proof.
  intros Hm Hd Hc Hwin.
  destruct (search_root_spec m depth Hm) as (mv & e & Hrun & Hmv & Hev & Hall).
  { intros Hnil. rewrite Hnil in Hc. inversion Hc. }
  exists mv. split; [done|]. split; [done|].
  assert (Hmvwin : wins_at_once m mv).
  { destruct (check_win_after_move m mv Hm Hmv) as (w & _ & Hw01 & Hw).
    apply Hw. destruct Hw01 as [-> | ->]; [|done]. exfalso.
    destruct (move_eval_no_win m depth mv Hm Hmv Hd) as (v & Hv & Hlt).
    { intros H. apply Hw in H. done. }
    destruct (Hall c Hc) as (e' & He' & Hle & _).
    rewrite (move_eval_win m depth c Hm Hc Hd Hwin) in He'.
    rewrite Hv in Hev. injection He' as <-. injection Hev as <-.
    simpl in Hle. lia. }
  split; [done|]. intros c' Hc' Hwin'.
  destruct (Hall c' Hc') as (e' & He' & _ & Htie). apply Htie.
  rewrite (move_eval_win m depth c' Hm Hc' Hd Hwin') in He'.
  rewrite (move_eval_win m depth mv Hm Hmv Hd Hmvwin) in Hev. congruence.
Qed.

Lemma search_root_takes_immediate_win_witness :
  let m := (play [0; 3; 1; 4] (new_game 3 None)).1 in
  exists mv,
    search_root 2 m = (m, Ret (Some mv)) /\
    mv ∈ legal_moves m /\ wins_at_once m mv /\
    forall c', c' ∈ legal_moves m -> wins_at_once m c' -> mv <= c'.
Proof.
  apply (search_root_takes_immediate_win
           (moved (moved (moved (moved (new_game 3 None) 0) 3) 1) 4) 2 2).
  - do 4 (apply consistent_moved;
          [|apply elem_of_legal_moves; split; [lia | reflexivity]]).
    apply consistent_new. lia.
  - lia.
  - apply elem_of_legal_moves. split; [lia | reflexivity].
  - reflexivity.
Defined.

(** X12.  When no cell is empty [search_root] makes no move and returns
    [None], for every depth. *)
Theorem search_root_without_moves m depth :
  legal_moves m = [] -> search_root depth m = (m, Ret None).
Proof.
  intros Hnil. unfold search_root.
  assert (Hfl : find_legal_moves m = (m, Ret (legal_moves m))) by reflexivity.
  rewrite (bind_run _ _ _ _ _ Hfl), Hnil. reflexivity.
Qed.

Lemma search_root_without_moves_witness :
  search_root 9 (moved (new_game 1 None) 0) = (moved (new_game 1 None) 0, Ret None).
Proof.
  apply (search_root_without_moves (moved (new_game 1 None) 0) 9). reflexivity.
Defined.

(** ** After a reset *)

Lemma legal_from_zeros n : forall i,
  legal_from i (replicate n 0) = seqZ i (Z.of_nat n).
Proof.
  induction n as [|n IH]; intros i; [done|].
  simpl replicate. simpl legal_from. rewrite IH.
  rewrite (seqZ_cons i (Z.of_nat (S n))) by lia.
  do 2 f_equal; lia.
Qed.

Lemma fmap_zero (l : list Z) : (fun _ => 0) <$> l = replicate (length l) 0.
Proof. induction l as [|x l IH]; simpl; [done|by f_equal]. Qed.

(** X13.  After [reset_board] every cell is a legal move:
    [find_legal_moves] returns all the indices of the board in order,
    whatever the history lists still hold. *)
Theorem reset_board_all_legal m :
  ((reset_board ;; find_legal_moves) m).2 =
  Ret (seqZ 0 (Z.of_nat (length (cells m)))).
Proof.
  cbv [reset_board find_legal_moves bind modify get ret]. simpl.
  unfold cells. rewrite fmap_zero. by rewrite legal_from_zeros.
Qed.

(** ** The environment *)


(** X14.  [step] with an action that is not a legal move (an occupied cell
    or an index off the board) changes nothing and returns the reward -10
    with [terminated = False] and an empty info. *)
Theorem step_rejects_illegal_action get_uid env action :
  action ∉ legal_moves (Gym.manager env) ->
  Gym.step get_uid action env =
  (env, Ret (get_uid (board (Gym.manager env)), -10, false, false, None)).
Proof.
  intros Hno. unfold Gym.step.
  cbv [Gym.bindE Gym.on_manager find_legal_moves bind get ret]. simpl.
  fold (cells (Gym.manager env)). fold (legal_moves (Gym.manager env)).
  rewrite bool_decide_eq_false_2 by done. simpl. by destruct env.
Qed.

Lemma step_rejects_illegal_action_witness :
  Gym.step (fun _ => 0) 9 (Gym.mkEnv 5 3 (new_game 3 (Some 3)) 9 []) =
  (Gym.mkEnv 5 3 (new_game 3 (Some 3)) 9 [],
   Ret ((fun _ => 0) (board (new_game 3 (Some 3))), -10, false, false, None)).
Proof.
  apply (step_rejects_illegal_action (fun _ => 0)
           (Gym.mkEnv 5 3 (new_game 3 (Some 3)) 9 []) 9).
  simpl. rewrite elem_of_legal_moves. intros [_ H]. discriminate.
Defined.

(** X15.  [step] with a legal action always ends the episode: it makes the
    move, returns [terminated = True] with the reward [-check_win()]
    (0 or -1), never lets the adversary reply, and leaves
    [action_space.legal_moves] as it was. *)
Theorem step_legal_action_terminates get_uid env action :
  consistent (Gym.manager env) -> action ∈ legal_moves (Gym.manager env) ->
  exists env' w,
    Gym.step get_uid action env =
    (env', Ret (get_uid (board (Gym.manager env')), - w, true, false,
                Some (Gym.mkInfo action true (- w)))) /\
    (w = 0 \/ w = 1) /\
    (w = 1 <-> wins_at_once (Gym.manager env) action) /\
    Gym.manager env' = moved (Gym.manager env) action /\
    Gym.moves env' = Gym.moves env.
Proof.
  intros Hm Hc. destruct env as [d s m n l]. simpl in *.
  destruct (check_win_after_move m action Hm Hc) as (w & Hcw & Hw01 & Hw).
  pose proof (make_move_legal m action Hc) as Hmk.
  exists (Gym.mkEnv d s (moved m action) n l), w.
  split; [|split; [done|split; [by symmetry|]]].
  - unfold Gym.step.
    cbv [Gym.bindE Gym.on_manager Gym.getE Gym.retE find_legal_moves bind get ret].
    simpl. fold (cells m). fold (legal_moves m).
    rewrite bool_decide_eq_true_2 by done. simpl.
    rewrite Hmk. simpl. rewrite Hcw. simpl. reflexivity.
  - simpl. done.
Qed.

Lemma step_legal_action_terminates_witness :
  let env := Gym.mkEnv 5 3 (new_game 3 (Some 3)) 9 [0; 1; 2; 3; 4; 5; 6; 7; 8] in
  exists env' w,
    Gym.step (fun _ => 0) 4 env =
    (env', Ret ((fun _ => 0) (board (Gym.manager env')), - w, true, false,
                Some (Gym.mkInfo 4 true (- w)))) /\
    (w = 0 \/ w = 1) /\
    (w = 1 <-> wins_at_once (Gym.manager env) 4) /\
    Gym.manager env' = moved (Gym.manager env) 4 /\
    Gym.moves env' = Gym.moves env.
Proof.
  apply (step_legal_action_terminates (fun _ => 0)
           (Gym.mkEnv 5 3 (new_game 3 (Some 3)) 9 [0; 1; 2; 3; 4; 5; 6; 7; 8]) 4).
  - apply consistent_new. lia.
  - apply elem_of_legal_moves. split; [lia | reflexivity].
Defined.

Lemma remove_first_occurrence l x :
  x ∈ l ->
  exists l1 l2, l = l1 ++ x :: l2 /\ (x ∉ l1) /\ Py.remove l x = Some (l1 ++ l2).
Proof.
  induction l as [|y l IH]; intros Hx; [inversion Hx|]. simpl.
  destruct (y =? x) eqn:E.
  - apply Z.eqb_eq in E. subst y. exists [], l. split; [done|].
    split; [apply not_elem_of_nil|done].
  - apply elem_of_cons in Hx as [-> | Hx]; [lia|].
    destruct (IH Hx) as (l1 & l2 & -> & Hno & ->).
    exists (y :: l1), l2. split; [done|]. split; [|done].
    apply not_elem_of_cons. split; [lia|done].
Qed.








(** X17.  [MoveSpace.sample] on a non-empty list returns one of its
    elements and removes the first occurrence of that element from the
    list; the manager is not touched. *)
Theorem sample_removes_choice pick env :
  Gym.moves env <> [] ->
  exists move l1 l2,
    Gym.moves env = l1 ++ move :: l2 /\ (move ∉ l1) /\
    Gym.sample pick env =
    (Gym.mkEnv (Gym.env_depth env) (Gym.env_size env) (Gym.manager env)
               (Gym.space_n env) (l1 ++ l2),
     Ret move).
Proof.
  intros Hne. unfold Gym.sample.
  cbv [Gym.bindE Gym.getE Gym.retE Gym.raiseE Gym.set_moves].
  destruct (Gym.moves env) as [|first others] eqn:Hl; [done|].
  assert (Hlt : (pick mod length (first :: others) < length (first :: others))%nat)
    by (apply Nat.mod_upper_bound; done).
  destruct (lookup_lt_is_Some_2 _ _ Hlt) as [move Hmove].
  rewrite Hmove.
  destruct (remove_first_occurrence (first :: others) move) as (l1 & l2 & Heq & Hno & Hrem).
  { eapply list_elem_of_lookup_2, Hmove. }
  rewrite Hrem. exists move, l1, l2. by rewrite Heq.
Qed.

Lemma sample_removes_choice_witness :
  exists move l1 l2,
    Gym.moves (Gym.mkEnv 5 3 (new_game 3 None) 9 [3; 5; 8]) = l1 ++ move :: l2 /\
    (move ∉ l1) /\
    Gym.sample 7 (Gym.mkEnv 5 3 (new_game 3 None) 9 [3; 5; 8]) =
    (Gym.mkEnv 5 3 (new_game 3 None) 9 (l1 ++ l2), Ret move).
Proof.
  apply (sample_removes_choice 7 (Gym.mkEnv 5 3 (new_game 3 None) 9 [3; 5; 8])).
  discriminate.
Defined.

(** ** Wrapping text *)

Lemma string_app_assoc (s t u : string) : s +:+ (t +:+ u) = (s +:+ t) +:+ u.
Proof.
  induction s as [|a s IH]; [reflexivity|].
  change (String a (s +:+ (t +:+ u)) = String a ((s +:+ t) +:+ u)).
  by rewrite IH.
Qed.

Lemma string_app_nil_r (s : string) : s +:+ "" = s.
Proof.
  induction s as [|a s IH]; [reflexivity|].
  change (String a (s +:+ "") = String a s). by rewrite IH.
Qed.

Lemma flat_app l1 l2 : Gui.flat (l1 ++ l2) = Gui.flat l1 +:+ Gui.flat l2.
Proof.
  induction l1 as [|s l1 IH]; [reflexivity|].
  change (s +:+ Gui.flat (l1 ++ l2) = (s +:+ Gui.flat l1) +:+ Gui.flat l2).
  by rewrite IH, string_app_assoc.
Qed.

Lemma flat_singleton s : Gui.flat [s] = s.
Proof. apply string_app_nil_r. Qed.

Section Wrap.
Variable text_width : string -> Z.
Variable box_width : Z.

Lemma wrap_words_flat words : forall lines line w,
  Gui.flat (Gui.wrap_words text_width box_width words lines line w) =
  Gui.flat lines +:+ line +:+ Gui.flat (Gui.spaced <$> words).
Proof.
  induction words as [|word rest IH]; intros lines line w; simpl.
  - rewrite flat_app, flat_singleton. by rewrite string_app_nil_r.
  - destruct (w + text_width (word +:+ " ") >=? box_width); rewrite IH.
    + rewrite flat_app, flat_singleton. unfold Gui.spaced.
      change ("" +:+ (word +:+ " ")) with (word +:+ " ").
      change (Gui.flat ((word +:+ " ") :: (Gui.spaced <$> rest)))
        with ((word +:+ " ") +:+ Gui.flat (Gui.spaced <$> rest)).
      by rewrite <- !string_app_assoc.
    + unfold Gui.spaced.
      change (Gui.flat ((word +:+ " ") :: (Gui.spaced <$> rest)))
        with ((word +:+ " ") +:+ Gui.flat (Gui.spaced <$> rest)).
      by rewrite <- !string_app_assoc.
Qed.

Lemma wrap_words_length words : forall lines line w,
  (S (length lines) <= length (Gui.wrap_words text_width box_width words lines line w)
   <= S (length lines + length words))%nat.
Proof.
  induction words as [|word rest IH]; intros lines line w; simpl.
  - rewrite length_app. simpl. lia.
  - destruct (w + text_width (word +:+ " ") >=? box_width).
    + specialize (IH (lines ++ [line]) ("" +:+ (word +:+ " "))
                     (0 + text_width (word +:+ " "))).
      rewrite length_app in IH. simpl in IH. lia.
    + specialize (IH lines (line +:+ (word +:+ " ")) (w + text_width (word +:+ " "))).
      lia.
Qed.


End Wrap.

(** X18.  The wrapping loop of [__create_text] loses nothing: the lines
    read one after another are the words in their order, each followed by
    one space; and there is at least one line and at most one more than
    there are words. *)
Theorem create_lines_keeps_words text_width box_width words :
  Gui.flat (Gui.create_lines text_width box_width words) =
  Gui.flat (Gui.spaced <$> words) /\
  (1 <= length (Gui.create_lines text_width box_width words)
   <= S (length words))%nat.
Proof.
  unfold Gui.create_lines. split.
  - rewrite wrap_words_flat. reflexivity.
  - pose proof (wrap_words_length text_width box_width words [] "" 0) as H.
    simpl in H. lia.
Qed.


Lemma wrap_words_prefix text_width box_width words : forall l0 lines line w,
  Gui.wrap_words text_width box_width words (l0 ++ lines) line w =
  l0 ++ Gui.wrap_words text_width box_width words lines line w.
Proof.
  induction words as [|word rest IH]; intros l0 lines line w; simpl.
  - by rewrite app_assoc.
  - destruct (w + text_width (word +:+ " ") >=? box_width); [|apply IH].
    rewrite <- app_assoc. apply IH.
Qed.

(** X20.  When the first word, with its space, is as wide as the box or
    wider, the first line the loop produces is the empty string: the text
    starts with a blank line. *)
Theorem create_lines_blank_first_line text_width box_width word rest :
  box_width <= text_width (word +:+ " ") ->
  exists lines,
    Gui.create_lines text_width box_width (word :: rest) = "" :: lines.
Proof.
  intros Hwide. unfold Gui.create_lines. simpl.
  destruct (Z.geb_spec (0 + text_width (word +:+ " ")) box_width) as [_ | Hlt]; [|lia].
  eexists. apply (wrap_words_prefix text_width box_width rest [""] []).
Qed.

Lemma create_lines_blank_first_line_witness :
  exists lines,
    Gui.create_lines (fun s => Z.of_nat (String.length s) * 10) 40
                     ["hello"; "you"] = "" :: lines.
Proof.
  apply (create_lines_blank_first_line
           (fun s => Z.of_nat (String.length s) * 10) 40 "hello" ["you"]).
  simpl. lia.
Defined.

(** ** The button's image cache *)

(** X21.  Starting from the empty cache of a new button, after any series
    of renders with path textures the cache holds at most one image: an
    image is stored only after the cache was cleared. *)
Theorem image_cache_holds_at_most_one
    (image : Type) (load : string -> image) (get_size : image -> Z * Z)
    (smoothscale : image -> Z * Z -> image) renders :
  (size (Gui.render_all image load get_size smoothscale ∅ renders) <= 1)%nat.
Proof.
  unfold Gui.render_all.
  assert (Hinv : forall cache : gmap string image,
            (size cache <= 1)%nat ->
            (size (foldl (fun c r =>
                     (Gui.texture_image image load get_size smoothscale c r.1 r.2).2)
                    cache renders) <= 1)%nat).
  { induction renders as [|r renders IH]; intros cache Hc; simpl; [done|].
    apply IH. unfold Gui.texture_image.
    destruct (cache !! r.1); simpl; [done|].
    destruct (bool_decide _); simpl; [|done].
    rewrite insert_empty, map_size_singleton. lia. }
  apply Hinv. rewrite map_size_empty. lia.
Qed.
